(** * grafHF3: dual numbers, parametric surfaces and the tethered body

    A shallow embedding of [3dendzsinke.cpp]: the dual-number type [Dnum]
    with its elementary functions, [ParamSurface::GenVertexData] and
    [ParamSurface::create], the [Noise] terrain and [Body::Animate].

    Numbers.  The C++ [float] is read as a real number: every [float]
    operation is the exact operation of [R], so rounding, overflow, NaN and
    signed zeros are outside the model.  The one exception is the loop
    variable of [onIdle], whose additions decide how often the loop runs:
    they are parameters of the model.  [int] is [Z]; the places where a
    32-bit value could wrap are written out. *)

From Stdlib Require Import Reals Lra Lia ZArith List.
Import ListNotations.

Local Open Scope R_scope.

Abbreviation float := R.

(* ================================================================= *)
(** ** Vectors of [framework.h] *)

(** Modelled from the spec: [framework.h] (the [vec2] type) is not part of
    the sources.  The spec calls it "a 2-component vector"; the operators
    the program uses on it act on each component. *)
Module Vec2.
Record t : Type := mk { x : float; y : float }.

Definition add (a b : t) : t := mk (x a + x b) (y a + y b).
Definition sub (a b : t) : t := mk (x a - x b) (y a - y b).
(** [v * a] *)
Definition mulr (v : t) (a : float) : t := mk (x v * a) (y v * a).
(** [a * v] *)
Definition mull (a : float) (v : t) : t := mk (x v * a) (y v * a).
(** [v / a] *)
Definition div (v : t) (a : float) : t := mk (x v / a) (y v / a).
End Vec2.
Abbreviation vec2 := Vec2.t.

(** Modelled from the spec: [framework.h] (the [vec3] type with [dot],
    [cross] and [length]) is not part of the sources.  The spec speaks of
    3D vectors, their cross product, dot product and Euclidean norm. *)
Module Vec3.
Record t : Type := mk { x : float; y : float; z : float }.

(** [vec3 K;] : the constructor's arguments default to zero. *)
Definition zero : t := mk 0 0 0.

Definition add (a b : t) : t := mk (x a + x b) (y a + y b) (z a + z b).
Definition sub (a b : t) : t := mk (x a - x b) (y a - y b) (z a - z b).
Definition neg (a : t) : t := mk (- x a) (- y a) (- z a).
Definition mulr (v : t) (a : float) : t := mk (x v * a) (y v * a) (z v * a).
Definition mull (a : float) (v : t) : t := mk (x v * a) (y v * a) (z v * a).
Definition div (v : t) (a : float) : t := mk (x v / a) (y v / a) (z v / a).

Definition dot (a b : t) : float := x a * x b + y a * y b + z a * z b.
Definition length (v : t) : float := sqrt (dot v v).
Definition cross (a b : t) : t :=
  mk (y a * z b - z a * y b) (z a * x b - x a * z b) (x a * y b - y a * x b).
End Vec3.
Abbreviation vec3 := Vec3.t.

(** Modelled from the spec: [framework.h] (the [vec4] type) is not part of
    the sources; a homogeneous point with four components. *)
Module Vec4.
Record t : Type := mk { x : float; y : float; z : float; w : float }.
End Vec4.
Abbreviation vec4 := Vec4.t.

(* ================================================================= *)
(** ** [template<class T> struct Dnum] *)

(** What the template asks of its parameter [T]: [T(0)], [T + T], [T - T],
    [float * T], [T * float] and [T / float]. *)
Class Derivative (T : Type) : Type := {
  T_of_0 : T;
  T_add : T -> T -> T;
  T_sub : T -> T -> T;
  T_mull : float -> T -> T;
  T_mulr : T -> float -> T;
  T_div : T -> float -> T
}.

#[export] Instance Derivative_vec2 : Derivative vec2 := {
  T_of_0 := Vec2.mk 0 0;
  T_add := Vec2.add;
  T_sub := Vec2.sub;
  T_mull := Vec2.mull;
  T_mulr := Vec2.mulr;
  T_div := Vec2.div
}.

Record Dnum (T : Type) : Type := mkDnum { f : float; d : T }.
Arguments mkDnum {T} _ _.
Arguments f {T} _.
Arguments d {T} _.

Declare Scope dnum_scope.
Delimit Scope dnum_scope with D.

Section DnumOps.
Context {T : Type} `{Derivative T}.

(** [Dnum(float f0 = 0, T d0 = T(0))] with one argument: the conversion
    that C++ applies to a [float] operand. *)
Definition Dnum_of_float (f0 : float) : Dnum T := mkDnum f0 T_of_0.

(** [Dnum()] *)
Definition Dnum_default : Dnum T := Dnum_of_float 0.

Definition Dnum_add (l r : Dnum T) : Dnum T :=
  mkDnum (f l + f r) (T_add (d l) (d r)).

Definition Dnum_sub (l r : Dnum T) : Dnum T :=
  mkDnum (f l - f r) (T_sub (d l) (d r)).

Definition Dnum_mul (l r : Dnum T) : Dnum T :=
  mkDnum (f l * f r) (T_add (T_mull (f l) (d r)) (T_mulr (d l) (f r))).

Definition Dnum_div (l r : Dnum T) : Dnum T :=
  mkDnum (f l / f r)
         (T_div (T_div (T_sub (T_mull (f r) (d l)) (T_mulr (d r) (f l)))
                       (f r))
                (f r)).
End DnumOps.

Infix "+" := Dnum_add : dnum_scope.
Infix "-" := Dnum_sub : dnum_scope.
Infix "*" := Dnum_mul : dnum_scope.
Infix "/" := Dnum_div : dnum_scope.

(** The [<math.h>] functions, read as the real functions they approximate.
    [ln] agrees with the mathematical logarithm on positive arguments
    only, and what is stated about the logarithm as a real function is
    stated there. *)
Definition expf : float -> float := exp.
Definition sinf : float -> float := sin.
Definition cosf : float -> float := cos.
Definition logf : float -> float := ln.
Definition sqrtf : float -> float := sqrt.

(** An exponent that is a whole number. *)
Definition whole (e : float) : Prop := e = IZR (Zfloor e).

(** [powf(b, e)], wherever C gives a real number for it: for a positive
    base [exp (e * ln b)]; for the base zero, [0] with a positive exponent
    and [1] with the exponent zero; for a negative base with a whole
    exponent the integer power.  For the base zero with a negative
    exponent C returns an infinity, and for a negative base with an
    exponent that is not whole a NaN: neither is a real number, [0] only
    holds their place. *)
Definition powf (b e : float) : float :=
  if Rlt_dec 0 b then Rpower b e
  else if Req_dec_T b 0 then
    if Rlt_dec 0 e then 0 else if Req_dec_T e 0 then 1 else 0
  else if Req_dec_T e (IZR (Zfloor e)) then powerRZ b (Zfloor e)
  else 0.

Section Elementary.
Context {T : Type} `{Derivative T}.

Definition Exp (g : Dnum T) : Dnum T :=
  mkDnum (expf (f g)) (T_mull (expf (f g)) (d g)).
Definition Sin (g : Dnum T) : Dnum T :=
  mkDnum (sinf (f g)) (T_mull (cosf (f g)) (d g)).
Definition Cos (g : Dnum T) : Dnum T :=
  mkDnum (cosf (f g)) (T_mull (- sinf (f g)) (d g)).
Definition Tan (g : Dnum T) : Dnum T := (Sin g / Cos g)%D.
Definition Sinh (g : Dnum T) : Dnum T :=
  mkDnum (sinh (f g)) (T_mull (cosh (f g)) (d g)).
Definition Cosh (g : Dnum T) : Dnum T :=
  mkDnum (cosh (f g)) (T_mull (sinh (f g)) (d g)).
Definition Tanh (g : Dnum T) : Dnum T := (Sinh g / Cosh g)%D.
Definition Log (g : Dnum T) : Dnum T :=
  mkDnum (logf (f g)) (T_div (d g) (f g)).
Definition Pow (g : Dnum T) (n : float) : Dnum T :=
  mkDnum (powf (f g) n) (T_mull (n * powf (f g) (n - 1)) (d g)).
End Elementary.

(** [typedef Dnum<vec2> Dnum2;] *)
Definition Dnum2 : Type := Dnum vec2.

Definition tessellationLevel : Z := 20.

(** [chain_rule outer g r]: the dual number [r] is [outer] applied to [g]
    by the chain rule.  Its value is [outer] at the value of [g], and its
    derivative is the derivative of [outer] at that point (in the sense of
    real analysis) times the derivative of [g]. *)
Definition chain_rule (outer : R -> R) (g r : Dnum2) : Prop :=
  f r = outer (f g) /\
  exists D : R,
    derivable_pt_lim outer (f g) D /\
    d r = Vec2.mk (D * Vec2.x (d g)) (D * Vec2.y (d g)).

(* ================================================================= *)
(** ** [int] and loops *)

Definition INT_MAX : Z := 2147483647.

(** Signed overflow is undefined in C++; the two's-complement result is
    written out, and the theorems stay in the range where none occurs. *)
Definition int_wrap (k : Z) : Z := ((k + 2 ^ 31) mod 2 ^ 32 - 2 ^ 31)%Z.

(** Conversion of an [int] to [unsigned int]. *)
Definition to_unsigned (k : Z) : Z := (k mod 2 ^ 32)%Z.

(** The values of [i] in [for (int i = 0; i < hi; i++)]. *)
Definition upto (hi : Z) : list Z := map Z.of_nat (seq 0 (Z.to_nat hi)).

(* ================================================================= *)
(** ** [class ParamSurface] *)

Record VertexData : Type := mkVertexData {
  position : vec3;
  normal : vec3;
  texcoord : vec2
}.

(** [virtual void eval(Dnum2& U, Dnum2& V, Dnum2& X, Dnum2& Y, Dnum2& Z)]:
    a surface of type [S] receives [U], [V] and the current [X], [Y], [Z],
    and leaves its results in [X], [Y], [Z]. *)
Class ParamSurface (S : Type) : Type :=
  eval : S -> Dnum2 -> Dnum2 -> Dnum2 * Dnum2 * Dnum2 -> Dnum2 * Dnum2 * Dnum2.

(** What [create] leaves behind: the two counters of the object and the
    vertices handed to [glBufferData]. *)
Record Tessellation : Type := mkTessellation {
  nVtxPerStrip : Z;
  nStrips : Z;
  vtxData : list VertexData
}.

Section ParamSurfaceMethods.
Context {S : Type} `{ParamSurface S}.

Definition GenVertexData (self : S) (u v : float) : VertexData :=
  let texcoord := Vec2.mk u v in
  let X : Dnum2 := Dnum_default in
  let Y : Dnum2 := Dnum_default in
  let Z : Dnum2 := Dnum_default in
  let U : Dnum2 := mkDnum u (Vec2.mk 1 0) in
  let V : Dnum2 := mkDnum v (Vec2.mk 0 1) in
  let '(X, Y, Z) := eval self U V (X, Y, Z) in
  let position := Vec3.mk (f X) (f Y) (f Z) in
  let drdU := Vec3.mk (Vec2.x (d X)) (Vec2.x (d Y)) (Vec2.x (d Z)) in
  let drdV := Vec3.mk (Vec2.y (d X)) (Vec2.y (d Y)) (Vec2.y (d Z)) in
  let normal := Vec3.cross drdU drdV in
  mkVertexData position normal texcoord.

Definition create (self : S) (N M : Z) : Tessellation :=
  let nVtxPerStrip := to_unsigned (int_wrap (int_wrap (M + 1) * 2)) in
  let nStrips := to_unsigned N in
  let vtxData :=
    fold_left
      (fun vtxData i =>
         fold_left
           (fun vtxData j =>
              (vtxData
                 ++ [GenVertexData self (IZR j / IZR M) (IZR i / IZR N)])
                ++ [GenVertexData self (IZR j / IZR M) (IZR (i + 1) / IZR N)])
           (upto (M + 1)) vtxData)
      (upto N) [] in
  mkTessellation nVtxPerStrip nStrips vtxData.

End ParamSurfaceMethods.

(** Strip [i] of the buffer: the [nVtxPerStrip] vertices that start at
    place [i * nVtxPerStrip], the product taken in the integers. *)
Definition strip (t : Tessellation) (i : Z) : list VertexData :=
  firstn (Z.to_nat (nVtxPerStrip t))
         (skipn (Z.to_nat (i * nVtxPerStrip t)) (vtxData t)).

(* ================================================================= *)
(** ** [class Noise] *)

(** [Dnum2 A[n][n]]: rows of cells.  The program only uses indices inside
    the array; outside it a read gives [Dnum2()] and a write does nothing. *)
Definition Table : Type := list (list Dnum2).

Fixpoint list_set {X : Type} (k : nat) (x : X) (l : list X) : list X :=
  match l, k with
  | [], _ => []
  | _ :: l', O => x :: l'
  | y :: l', S k' => y :: list_set k' x l'
  end.

Definition Table_get (t : Table) (i j : Z) : Dnum2 :=
  nth (Z.to_nat j) (nth (Z.to_nat i) t []) Dnum_default.

Definition Table_set (t : Table) (i j : Z) (c : Dnum2) : Table :=
  list_set (Z.to_nat i) (list_set (Z.to_nat j) c (nth (Z.to_nat i) t [])) t.

Definition Noise_n : Z := 3.

Record Noise : Type := mkNoise { A : Table; B : Table }.

(** The members before the constructor's body runs: every cell [Dnum2()]. *)
Definition Noise_members : Noise :=
  let row := [Dnum_default; Dnum_default; Dnum_default] in
  mkNoise [row; row; row] [row; row; row].

(** The generator behind [rand()]: the values it is going to return, in
    order, and how many of them have been taken. *)
Record RandState : Type := mkRandState {
  rand_values : nat -> Z;
  rand_calls : nat
}.

Definition rand (st : RandState) : Z * RandState :=
  (rand_values st (rand_calls st),
   mkRandState (rand_values st) (Datatypes.S (rand_calls st))).

(** [rand()] returns a value between [0] and [RAND_MAX], both included. *)
Definition rand_in_range (RAND_MAX : Z) (st : RandState) : Prop :=
  forall k : nat, (0 <= rand_values st k <= RAND_MAX)%Z.

Definition initA (RAND_MAX : Z) (self : Noise) (st : RandState)
  : Noise * RandState :=
  fold_left
    (fun acc i =>
       fold_left
         (fun '(self, st) j =>
            if ((i =? 0) && (j =? 0))%Z%bool
            then (mkNoise (Table_set (A self) i j (Dnum_of_float (IZR 0)))
                          (B self),
                  st)
            else
              let a := Table_set (A self) i j
                         (Dnum_of_float (1 / sqrtf (IZR (i * i + j * j)))) in
              let '(r, st) := rand st in
              (mkNoise a
                       (Table_set (B self) i j
                          (Dnum_of_float (IZR r / IZR RAND_MAX))),
               st))
         (upto Noise_n) acc)
    (upto Noise_n) (self, st).

Definition Noise_eval (self : Noise) (U V : Dnum2)
    (XYZ : Dnum2 * Dnum2 * Dnum2) : Dnum2 * Dnum2 * Dnum2 :=
  let X := (U - Dnum_of_float 0.5)%D in
  let Z := (V - Dnum_of_float 0.5)%D in
  let Y : Dnum2 := Dnum_of_float (IZR 0) in
  let Y :=
    fold_left
      (fun Y i =>
         fold_left
           (fun Y j =>
              (Y + Cos ((X * Dnum_of_float (IZR i) + Z * Dnum_of_float (IZR j)
                         + Table_get (B self) i j)
                        * Dnum_of_float PI * Dnum_of_float (IZR 2))
                   * Table_get (A self) i j)%D)
           (upto Noise_n) Y)
      (upto Noise_n) Y in
  (X, Y, Z).

#[export] Instance ParamSurface_Noise : ParamSurface Noise := Noise_eval.

(** [Noise() { initA(); create(); }] *)
Definition Noise_new (RAND_MAX : Z) (st : RandState)
  : Noise * Tessellation * RandState :=
  let '(self, st) := initA RAND_MAX Noise_members st in
  (self, create self tessellationLevel tessellationLevel, st).

(** The sum of [term i j] over the [n] by [n] grid, [i] outermost. *)
Definition grid_sum (term : Z -> Z -> R) : R :=
  fold_left
    (fun acc i => fold_left (fun acc j => acc + term i j) (upto Noise_n) acc)
    (upto Noise_n) 0.

(* ================================================================= *)
(** ** [struct Object] and [struct Body] *)

(** The 4 by 4 matrices of [framework.h], which is not part of the
    sources, are taken as a parameter: the matrix type with its default
    value, the three transformations, the matrix product and the product
    of a row vector with a matrix. *)
Class Framework : Type := {
  mat4 : Type;
  mat4_default : mat4;
  ScaleMatrix : vec3 -> mat4;
  RotationMatrix : float -> vec3 -> mat4;
  TranslateMatrix : vec3 -> mat4;
  mat4_mul : mat4 -> mat4 -> mat4;
  vec4_mul_mat4 : vec4 -> mat4 -> vec4
}.

(** [Shader *], [Material *], [Texture *], [Geometry *] *)
Abbreviation pointer := Z.

Record Object : Type := mkObject {
  shader : pointer;
  material : pointer;
  texture : pointer;
  geometry : pointer;
  scale : vec3;
  translation : vec3;
  rotationAxis : vec3;
  rotationAngle : float
}.

Definition Object_new (_shader _material _texture _geometry : pointer)
  : Object :=
  mkObject _shader _material _texture _geometry
           (Vec3.mk 1 1 1) (Vec3.mk 0 0 0) (Vec3.mk 0 0 0) 0.

Section Dynamics.
Context {fw : Framework}.

Definition SetModelingTransform (self : Object) : mat4 * mat4 :=
  (mat4_mul
     (mat4_mul (ScaleMatrix (scale self))
               (RotationMatrix (rotationAngle self) (rotationAxis self)))
     (TranslateMatrix (translation self)),
   mat4_mul
     (mat4_mul (TranslateMatrix (Vec3.neg (translation self)))
               (RotationMatrix (- rotationAngle self) (rotationAxis self)))
     (ScaleMatrix (Vec3.mk (1 / Vec3.x (scale self))
                           (1 / Vec3.y (scale self))
                           (1 / Vec3.z (scale self))))).

(** [Object::Animate] *)
Definition Object_Animate (self : Object) (tstart tend : float) : Object :=
  mkObject (shader self) (material self) (texture self) (geometry self)
           (scale self) (translation self) (rotationAxis self) (0 * tend).

(** [struct Body : public Object] *)
Record Body : Type := mkBody {
  object : Object;
  m : float;
  g : vec3;
  v : vec3;
  ro : float;
  s : vec3;
  M : mat4;
  Minv : mat4;
  D : float;
  l0 : float;
  w : vec3;
  kappa : float
}.

Definition Body_new (_shader _material _texture _geometry : pointer) : Body :=
  let o := Object_new _shader _material _texture _geometry in
  mkBody (mkObject (shader o) (material o) (texture o) (geometry o)
                   (scale o) (translation o) (Vec3.mk 0 0 1)
                   (rotationAngle o))
         1 (Vec3.mk 0 (-5) 0) (Vec3.mk 1 0 0) 0.3 (Vec3.mk 0 5 0)
         mat4_default mat4_default 1 3 (Vec3.mk 0 0 0) 0.3.

(** The variables of one run of the body of [Body::Animate] past the test
    of [goon], each with the value it has when the function returns.  [p0]
    and [L0] are [p] and [L] as first assigned, [torque] is the local
    [vec3 M] and [Inertia] the local [float I]; the other names are the
    program's, the members among them carrying a prime. *)
Record AnimateVars : Type := mkAnimateVars {
  M' : mat4;
  Minv' : mat4;
  ll : vec4;
  l : vec3;
  dt : float;
  translation' : vec3;
  p0 : vec3;
  K : vec3;
  F : vec3;
  p : vec3;
  v' : vec3;
  Inertia : float;
  L0 : vec3;
  torque : vec3;
  L : vec3;
  w' : vec3;
  rotationAngle' : float
}.

Definition Animate_vars (self : Body) (tstart tend : float) : AnimateVars :=
  let '(M', Minv') := SetModelingTransform (object self) in
  let ll := vec4_mul_mat4 (Vec4.mk 0 (-0.5) 0 1) M' in
  let l := Vec3.mk (Vec4.x ll) (Vec4.y ll) (Vec4.z ll) in
  let dt := tend - tstart in
  let translation' :=
    Vec3.add (translation (object self)) (Vec3.mulr (v self) dt) in
  let p0 := Vec3.mull (m self) (v self) in
  let K :=
    if Rgt_dec (Vec3.length (Vec3.sub (s self) l)) (l0 self)
    then Vec3.mulr (Vec3.mull (D self) (Vec3.sub (s self) l))
                   (Vec3.length (Vec3.sub (s self) l) - l0 self)
    else Vec3.zero in
  let F :=
    Vec3.sub (Vec3.add (Vec3.mull (m self) (g self)) K)
             (Vec3.mull (ro self) (v self)) in
  let p := Vec3.add p0 (Vec3.mulr F dt) in
  let v' := Vec3.div p (m self) in
  let Inertia :=
    m self * (Vec3.x (scale (object self)) * Vec3.x (scale (object self))
              + Vec3.y (scale (object self)) * Vec3.y (scale (object self)))
    / 12 in
  let L0 := Vec3.mull Inertia (w self) in
  let torque :=
    Vec3.sub (Vec3.cross (Vec3.sub l translation') K)
             (Vec3.mull (kappa self) (w self)) in
  let L := Vec3.add L0 (Vec3.mulr torque dt) in
  let w' := Vec3.mull (1 / Inertia) L in
  let rotationAngle' :=
    rotationAngle (object self)
    - Vec3.dot (rotationAxis (object self)) w' * dt in
  mkAnimateVars M' Minv' ll l dt translation' p0 K F p v' Inertia L0 torque L w'
                rotationAngle'.

(** [Body::Animate], with the global [goon] as an argument. *)
Definition Animate (goon : bool) (self : Body) (tstart tend : float) : Body :=
  if negb goon then self
  else
    let a := Animate_vars self tstart tend in
    let o := object self in
    mkBody (mkObject (shader o) (material o) (texture o) (geometry o)
                     (scale o) (translation' a) (rotationAxis o)
                     (rotationAngle' a))
           (m self) (g self) (v' a) (ro self) (s self) (M' a) (Minv' a)
           (D self) (l0 self) (w' a) (kappa self).

(** The global [goon] next to the scene's body. *)
Record World : Type := mkWorld { goon : bool; body : Body }.

(** [bool goon = false;] *)
Definition World_start (b : Body) : World := mkWorld false b.

Definition onKeyboard (wd : World) : World := mkWorld true (body wd).

(** The part of [Scene::Animate] that concerns the body. *)
Definition Scene_Animate (wd : World) (tstart tend : float) : World :=
  mkWorld (goon wd) (Animate (goon wd) (body wd) tstart tend).

Inductive event : Type :=
| KeyPressed
| Tick (tstart tend : float).

Definition handle (wd : World) (e : event) : World :=
  match e with
  | KeyPressed => onKeyboard wd
  | Tick tstart tend => Scene_Animate wd tstart tend
  end.

Definition run (wd : World) (es : list event) : World :=
  fold_left handle es wd.

End Dynamics.

(* ================================================================= *)
(** ** An instance of the matrices *)

(** Modelled from the spec: [framework.h] (its [mat4]) is not part of the
    sources.  The spec composes the model matrix from a scaling, a
    rotation about an axis and a translation, applied to row vectors;
    this instance, in which the rotation is Rodrigues' matrix about the
    normalized axis, serves the examples. *)
Module Mat4.
Record t : Type := mk { r0 : vec4; r1 : vec4; r2 : vec4; r3 : vec4 }.

Definition vscale (a : float) (u : vec4) : vec4 :=
  Vec4.mk (Vec4.x u * a) (Vec4.y u * a) (Vec4.z u * a) (Vec4.w u * a).

Definition vadd (a b : vec4) : vec4 :=
  Vec4.mk (Vec4.x a + Vec4.x b) (Vec4.y a + Vec4.y b)
          (Vec4.z a + Vec4.z b) (Vec4.w a + Vec4.w b).

Definition vmul (u : vec4) (a : t) : vec4 :=
  vadd (vadd (vadd (vscale (Vec4.x u) (r0 a)) (vscale (Vec4.y u) (r1 a)))
             (vscale (Vec4.z u) (r2 a)))
       (vscale (Vec4.w u) (r3 a)).

Definition mul (a b : t) : t :=
  mk (vmul (r0 a) b) (vmul (r1 a) b) (vmul (r2 a) b) (vmul (r3 a) b).

Definition Translate (c : vec3) : t :=
  mk (Vec4.mk 1 0 0 0) (Vec4.mk 0 1 0 0) (Vec4.mk 0 0 1 0)
     (Vec4.mk (Vec3.x c) (Vec3.y c) (Vec3.z c) 1).

Definition Scale (c : vec3) : t :=
  mk (Vec4.mk (Vec3.x c) 0 0 0) (Vec4.mk 0 (Vec3.y c) 0 0)
     (Vec4.mk 0 0 (Vec3.z c) 0) (Vec4.mk 0 0 0 1).

Definition Rotation (angle : float) (axis : vec3) : t :=
  let c := cos angle in
  let s := sin angle in
  let a := Vec3.mulr axis (1 / Vec3.length axis) in
  let ax := Vec3.x a in
  let ay := Vec3.y a in
  let az := Vec3.z a in
  mk (Vec4.mk (c * (1 - ax * ax) + ax * ax) (ax * ay * (1 - c) + az * s)
              (ax * az * (1 - c) - ay * s) 0)
     (Vec4.mk (ax * ay * (1 - c) - az * s) (c * (1 - ay * ay) + ay * ay)
              (ay * az * (1 - c) + ax * s) 0)
     (Vec4.mk (ax * az * (1 - c) + ay * s) (ay * az * (1 - c) - ax * s)
              (c * (1 - az * az) + az * az) 0)
     (Vec4.mk 0 0 0 1).

Definition zero : t :=
  mk (Vec4.mk 0 0 0 0) (Vec4.mk 0 0 0 0) (Vec4.mk 0 0 0 0) (Vec4.mk 0 0 0 0).
End Mat4.

Definition Framework_Mat4 : Framework := {|
  mat4 := Mat4.t;
  mat4_default := Mat4.zero;
  ScaleMatrix := Mat4.Scale;
  RotationMatrix := Mat4.Rotation;
  TranslateMatrix := Mat4.Translate;
  mat4_mul := Mat4.mul;
  vec4_mul_mat4 := Mat4.vmul
|}.

(** The body of [Scene::Build]: the cube hanging at [(0, 5, 0)]. *)
Definition cubeObject : @Body Framework_Mat4 :=
  let b := @Body_new Framework_Mat4 1 2 3 4 in
  let o := object b in
  mkBody (mkObject (shader o) (material o) (texture o) (geometry o)
                   (Vec3.mk 1 1.5 0.5) (Vec3.mk 0 5 0) (rotationAxis o)
                   (rotationAngle o))
         (m b) (g b) (v b) (ro b) (s b) (M b) (Minv b) (D b) (l0 b) (w b)
         (kappa b).

(** The cube with its centre moved to the origin. *)
Definition cubeLow : @Body Framework_Mat4 :=
  let b := cubeObject in
  let o := object b in
  mkBody (mkObject (shader o) (material o) (texture o) (geometry o)
                   (scale o) (Vec3.mk 0 0 0) (rotationAxis o)
                   (rotationAngle o))
         (m b) (g b) (v b) (ro b) (s b) (M b) (Minv b) (D b) (l0 b) (w b)
         (kappa b).

(** A body at rest with unit mass and a spring without stiffness. *)
Definition cubeFree : @Body Framework_Mat4 :=
  let b := cubeObject in
  mkBody (object b) 1 (Vec3.mk 0 (-5) 0) Vec3.zero (ro b) (s b) (M b) (Minv b)
         0 (l0 b) (w b) (kappa b).


(* ================================================================= *)
(** ** Dual numbers as carriers of partial derivatives *)

(** [tracks H u v r]: the dual number [r] carries the function [H] of the
    two surface parameters at the point [(u, v)]: its value is [H u v] and
    the two components of its derivative are the partial derivatives of
    [H] there, with respect to the first and to the second parameter. *)
Definition tracks (H : R -> R -> R) (u v : R) (r : Dnum2) : Prop :=
  f r = H u v /\
  derivable_pt_lim (fun t => H t v) u (Vec2.x (d r)) /\
  derivable_pt_lim (fun t => H u t) v (Vec2.y (d r)).

(** The height of the terrain over the parameter point [(a, b)], from the
    values in the two tables of [self]. *)
Definition Noise_height (self : Noise) (a b : R) : R :=
  grid_sum (fun i j =>
    f (Table_get (A self) i j)
    * cos (2 * PI * (IZR i * (a - 0.5) + IZR j * (b - 0.5)
                     + f (Table_get (B self) i j)))).

(* ================================================================= *)
(** ** [ParamSurface::Draw] *)

(** The calls [glDrawArrays(GL_TRIANGLE_STRIP, i * nVtxPerStrip,
    nVtxPerStrip)] of the loop over [unsigned int i], each as the pair of
    its arguments [first] and [count].  The product is one of two
    [unsigned int]s; [first] is a [GLint] and [count] a [GLsizei], both
    [int]. *)
Definition Draw (t : Tessellation) : list (Z * Z) :=
  map (fun i => (int_wrap (to_unsigned (i * nVtxPerStrip t)),
                 int_wrap (nVtxPerStrip t)))
      (upto (nStrips t)).

(** The vertices of [buffer] that one call of [glDrawArrays] reads: [count]
    of them from place [first] on.  With a negative argument the call is
    an error and reads nothing. *)
Definition drawn (buffer : list VertexData) (call : Z * Z)
  : list VertexData :=
  if ((fst call <? 0) || (snd call <? 0))%Z%bool then []
  else firstn (Z.to_nat (snd call)) (skipn (Z.to_nat (fst call)) buffer).

(* ================================================================= *)
(** ** [class CheckerBoardTexture] *)

Definition yellow : vec4 := Vec4.mk 1 1 0 1.
Definition blue : vec4 := Vec4.mk 0 0 1 1.

(** The image that the constructor hands to [create].
    [std::vector<vec4> image(width * height)] throws when the size is
    negative, which is [None] here; otherwise every cell starts as a
    default [vec4], taken to be zero, and the two loops fill the cells. *)
Definition CheckerBoardTexture (width height : Z) : option (list vec4) :=
  if (int_wrap (width * height) <? 0)%Z then None
  else
    let image :=
      repeat (Vec4.mk 0 0 0 0) (Z.to_nat (int_wrap (width * height))) in
    Some
      (fold_left
         (fun image x =>
            fold_left
              (fun image y =>
                 list_set (Z.to_nat (int_wrap (int_wrap (y * width) + x)))
                          (if (Z.lxor (Z.land x 1) (Z.land y 1) =? 0)%Z
                           then blue else yellow)
                          image)
              (upto height) image)
         (upto width) image).

(** A run of indexed writes into a list, in the order of the run. *)
Definition apply_writes {X : Type} (ws : list (nat * X)) (l : list X)
  : list X :=
  fold_left (fun l w => list_set (fst w) (snd w) l) ws l.

(* ================================================================= *)
(** ** [onIdle] *)

(** [const float dt = 0.1f;] *)
Definition onIdle_dt : float := 0.1.

(** The loop [for (float t = tstart; t < tend; t += dt)] of [onIdle], on a
    scene of type [St] that [animate] advances as [scene.Animate] does.
    How far [t += dt] moves [t] decides the number of rounds, so the
    additions and the subtraction on the loop variable are not read as
    exact here: they are the parameters [fadd] and [fsub], which stand
    for the operations of [float].  [fuel] bounds the number of rounds;
    the result is [None] when it does not suffice. *)
Fixpoint onIdle_loop {St : Type} (fadd fsub : float -> float -> float)
    (animate : St -> float -> float -> St)
    (fuel : nat) (scene : St) (t tend : float) : option St :=
  match fuel with
  | O => None
  | Datatypes.S fuel' =>
      if Rlt_dec t tend
      then
        let Dt := Rmin onIdle_dt (fsub tend t) in
        onIdle_loop fadd fsub animate fuel'
                    (animate scene t (fadd t Dt)) (fadd t onIdle_dt) tend
      else Some scene
  end.

(** [onIdle] with its static [tend] as an argument and as a result, and
    with the value of [glutGet(GLUT_ELAPSED_TIME)] as an argument. *)
Definition onIdle {St : Type} (fadd fsub : float -> float -> float)
    (animate : St -> float -> float -> St)
    (fuel : nat) (tend_static : float) (scene : St) (elapsed : Z)
  : option (float * St) :=
  let tstart := tend_static in
  let tend := IZR elapsed / 1000 in
  option_map (fun scene' => (tend, scene'))
             (onIdle_loop fadd fsub animate fuel scene tstart tend).

(** [calls] are steps that follow one another from the time [a] to the
    time [c]: each begins where the one before ended. *)
Inductive contiguous : float -> float -> list (float * float) -> Prop :=
| contiguous_nil (a : float) : contiguous a a []
| contiguous_cons (a b c : float) (calls : list (float * float)) :
    contiguous b c calls -> contiguous a c ((a, b) :: calls).

(** The scene after the calls [animate scene a b] for [(a, b)] in
    [calls], in order. *)
Definition animate_calls {St : Type} (animate : St -> float -> float -> St)
    (calls : list (float * float)) (scene : St) : St :=
  fold_left (fun sc c => animate sc (fst c) (snd c)) calls scene.

(* ================================================================= *)
(** ** [class Scene]: the cameras in [Scene::Animate] *)

Record Camera : Type := mkCamera {
  wEye : vec3;
  wLookat : vec3;
  wVup : vec3;
  fov : float;
  asp : float;
  fp : float;
  bp : float
}.

Section SceneCameras.
Context {fw : Framework}.

(** The members of [Scene] that [Animate] works on: the two objects of
    [objects], of which [b] points to the second, and the two cameras. *)
Record Scene : Type := mkScene {
  noiseObject : Object;
  b : Body;
  camera : Camera;
  c2 : Camera
}.

(** [Scene::Animate], with the global [goon] as an argument. *)
Definition Scene_Animate_cameras (started : bool) (self : Scene)
    (tstart tend : float) : Scene :=
  let noiseObject' := Object_Animate (noiseObject self) tstart tend in
  let b' := Animate started (b self) tstart tend in
  let cam := camera self in
  let camera' :=
    mkCamera (Vec3.mk (10 * sinf (tend / 5)) 0 (10 * cosf (tend / 5)))
             (wLookat cam) (wVup cam) (fov cam) (asp cam) (fp cam) (bp cam) in
  let ll := vec4_mul_mat4 (Vec4.mk 0 (-0.5) 0 1) (M b') in
  let c2_wEye := Vec3.mk (Vec4.x ll) (Vec4.y ll) (Vec4.z ll) in
  let nn := vec4_mul_mat4 (Vec4.mk 0 (-1) 0 0) (Minv b') in
  let c2_wLookat :=
    Vec3.add c2_wEye (Vec3.mk (Vec4.x nn) (Vec4.y nn) (Vec4.z nn)) in
  let oo := vec4_mul_mat4 (Vec4.mk 1 0 0 0) (Minv b') in
  let c2_wVup := Vec3.mk (Vec4.x oo) (Vec4.y oo) (Vec4.z oo) in
  let cam2 := c2 self in
  mkScene noiseObject' b' camera'
          (mkCamera c2_wEye c2_wLookat c2_wVup
                    (fov cam2) (asp cam2) (fp cam2) (bp cam2)).

End SceneCameras.

(** The cube coasting: no gravity, no spring, no drag, turning about its
    axis. *)
Definition cubeCoast : @Body Framework_Mat4 :=
  let c := cubeObject in
  mkBody (object c) 1 Vec3.zero (Vec3.mk 1 0 0) 0 (s c) (M c) (Minv c)
         0 (l0 c) (Vec3.mk 0 0 1) 0.

(* ================================================================= *)
(** * Theorems *)

Lemma Vec2_ext (a b : vec2) :
  Vec2.x a = Vec2.x b -> Vec2.y a = Vec2.y b -> a = b.
Proof. destruct a, b; simpl; intros -> ->; reflexivity. Qed.

Lemma Vec3_ext (a b : vec3) :
  Vec3.x a = Vec3.x b -> Vec3.y a = Vec3.y b -> Vec3.z a = Vec3.z b -> a = b.
Proof. destruct a, b; simpl; intros -> -> ->; reflexivity. Qed.

(* ================================================================= *)
(** ** Theorems: dual-number arithmetic *)

(** C3.  For dual numbers [a] and [b] the value of [a op b] is the scalar
    result on the two values for [+], [-], [*] and [/]; the derivative of
    a sum is the sum of the derivatives, of a difference the difference,
    of a product [a.f * b.d + a.d * b.f], and, when [b.f] is not zero, of
    a quotient [(b.f * a.d - b.d * a.f) / (b.f * b.f)], in each of the
    two derivative components. *)
Theorem Dnum_arith_rules (a b : Dnum2) :
  f (a + b)%D = f a + f b /\
  f (a - b)%D = f a - f b /\
  f (a * b)%D = f a * f b /\
  f (a / b)%D = f a / f b /\
  d (a + b)%D = Vec2.mk (Vec2.x (d a) + Vec2.x (d b))
                        (Vec2.y (d a) + Vec2.y (d b)) /\
  d (a - b)%D = Vec2.mk (Vec2.x (d a) - Vec2.x (d b))
                        (Vec2.y (d a) - Vec2.y (d b)) /\
  d (a * b)%D = Vec2.mk (f a * Vec2.x (d b) + Vec2.x (d a) * f b)
                        (f a * Vec2.y (d b) + Vec2.y (d a) * f b) /\
  (f b <> 0 ->
   d (a / b)%D =
     Vec2.mk ((f b * Vec2.x (d a) - Vec2.x (d b) * f a) / (f b * f b))
             ((f b * Vec2.y (d a) - Vec2.y (d b) * f a) / (f b * f b))).
Proof.
  do 6 (split; [reflexivity|]).
  split.
  - apply Vec2_ext; simpl; ring.
  - intros Hb. apply Vec2_ext; simpl; field; exact Hb.
Qed.

(** The quotient of [1 + (1, 0) eps] by [2 + (0, 1) eps]. *)
Lemma Dnum_arith_rules_witness :
  d (mkDnum 1 (Vec2.mk 1 0) / mkDnum 2 (Vec2.mk 0 1) : Dnum2)%D
  = Vec2.mk (1 / 2) (- 1 / 4).
Proof.
  destruct (Dnum_arith_rules (mkDnum 1 (Vec2.mk 1 0))
                             (mkDnum 2 (Vec2.mk 0 1)))
    as (_ & _ & _ & _ & _ & _ & _ & Hdiv).
  rewrite Hdiv by (simpl; lra).
  apply Vec2_ext; simpl; lra.
Defined.

(* ================================================================= *)
(** ** Theorems: elementary functions *)

Lemma cosh_neq_0 (x : R) : cosh x <> 0.
Proof.
  unfold cosh.
  pose proof (exp_pos x). pose proof (exp_pos (- x)). lra.
Qed.

Lemma chain_rule_direct (outer : R -> R) (D : R) (g r : Dnum2) :
  f r = outer (f g) ->
  derivable_pt_lim outer (f g) D ->
  Vec2.x (d r) = D * Vec2.x (d g) ->
  Vec2.y (d r) = D * Vec2.y (d g) ->
  chain_rule outer g r.
Proof.
  intros Hf HD Hx Hy. split; [exact Hf|].
  exists D. split; [exact HD|].
  apply Vec2_ext; assumption.
Qed.

Lemma chain_rule_Tan (g : Dnum2) : cos (f g) <> 0 -> chain_rule tan g (Tan g).
Proof.
  intros Hc.
  apply chain_rule_direct
    with (D := (cos (f g) * cos (f g) - - sin (f g) * sin (f g))
               / Rsqr (cos (f g))).
  - reflexivity.
  - exact (derivable_pt_lim_div sin cos (f g) _ _
             (derivable_pt_lim_sin (f g)) (derivable_pt_lim_cos (f g)) Hc).
  - simpl. unfold sinf, cosf, Rsqr. field. exact Hc.
  - simpl. unfold sinf, cosf, Rsqr. field. exact Hc.
Qed.

Lemma chain_rule_Tanh (g : Dnum2) : chain_rule tanh g (Tanh g).
Proof.
  pose proof (cosh_neq_0 (f g)) as Hc.
  apply chain_rule_direct
    with (D := (cosh (f g) * cosh (f g) - sinh (f g) * sinh (f g))
               / Rsqr (cosh (f g))).
  - reflexivity.
  - exact (derivable_pt_lim_div sinh cosh (f g) _ _
             (derivable_pt_lim_sinh (f g)) (derivable_pt_lim_cosh (f g)) Hc).
  - simpl. unfold Rsqr. field. exact Hc.
  - simpl. unfold Rsqr. field. exact Hc.
Qed.

Lemma derivable_pt_lim_eq (h : R -> R) (x l1 l2 : R) :
  l1 = l2 -> derivable_pt_lim h x l1 -> derivable_pt_lim h x l2.
Proof. intros ->. exact (fun H => H). Qed.

(** [powf] on its three kinds of arguments. *)
Lemma powf_pos (b e : float) : 0 < b -> powf b e = Rpower b e.
Proof.
  intros Hb. unfold powf. destruct (Rlt_dec 0 b); [reflexivity | lra].
Qed.

Lemma whole_IZR (z : Z) : whole (IZR z).
Proof. unfold whole. rewrite ZfloorZ. reflexivity. Qed.

Lemma powerRZ_0_pos (z : Z) : (0 < z)%Z -> powerRZ 0 z = 0.
Proof.
  destruct z as [|p|p]; try lia. intros _. simpl.
  apply pow_i. apply Pos2Nat.is_pos.
Qed.

Lemma powf_whole (b : float) (z : Z) :
  b <> 0 \/ (0 <= z)%Z -> powf b (IZR z) = powerRZ b z.
Proof.
  intros Hd. unfold powf.
  destruct (Rlt_dec 0 b) as [Hpos | Hnpos].
  - symmetry. apply powerRZ_Rpower. exact Hpos.
  - destruct (Req_dec_T b 0) as [-> | Hne].
    + assert (Hz : (0 <= z)%Z) by (destruct Hd as [Hd | Hd]; [lra | exact Hd]).
      destruct (Rlt_dec 0 (IZR z)) as [Hez | Hez].
      * symmetry. apply powerRZ_0_pos. apply lt_IZR. exact Hez.
      * assert (z = 0%Z).
        { apply IZR_le in Hz. apply eq_IZR. lra. }
        subst z. destruct (Req_dec_T 0 0) as [_ | Hc]; [reflexivity | lra].
    + rewrite ZfloorZ.
      destruct (Req_dec_T (IZR z) (IZR z)) as [_ | Hc];
        [reflexivity | contradiction].
Qed.

(** The derivative of an integer power, away from zero or for an
    exponent of at least one. *)
Lemma derivable_pt_lim_powerRZ (z : Z) (b : R) :
  b <> 0 \/ (1 <= z)%Z ->
  derivable_pt_lim (fun v => powerRZ v z) b (IZR z * powerRZ b (z - 1)).
Proof.
  intros Hd. destruct z as [|p|p].
  - simpl. rewrite Rmult_0_l. apply (derivable_pt_lim_const 1).
  - pose proof (derivable_pt_lim_pow b (Pos.to_nat p)) as Hp.
    apply derivable_pt_lim_eq with (2 := Hp).
    rewrite INR_IZR_INZ, positive_nat_Z. f_equal.
    rewrite pow_powerRZ. f_equal.
    pose proof (Pos2Nat.is_pos p). lia.
  - assert (Hb : b <> 0) by (destruct Hd as [Hd | Hd]; [exact Hd | lia]).
    assert (Hbn : b ^ Pos.to_nat p <> 0) by (apply pow_nonzero; exact Hb).
    pose proof (derivable_pt_lim_div (fct_cte 1)
                  (fun v => v ^ Pos.to_nat p) b 0
                  (INR (Pos.to_nat p) * b ^ Init.Nat.pred (Pos.to_nat p))
                  (derivable_pt_lim_const 1 b)
                  (derivable_pt_lim_pow b (Pos.to_nat p)) Hbn) as Hq.
    apply derivable_pt_lim_ext
      with (f := (fct_cte 1 / (fun v => v ^ Pos.to_nat p))%F).
    + intros v. unfold div_fct, fct_cte. simpl. unfold Rdiv.
      apply Rmult_1_l.
    + apply derivable_pt_lim_eq with (2 := Hq).
      unfold fct_cte, Rsqr.
      replace (Z.neg p - 1)%Z with (Z.neg (p + 1)) by lia.
      simpl powerRZ.
      rewrite Pos2Nat.inj_add.
      replace (Pos.to_nat p + Pos.to_nat 1)%nat
        with (Datatypes.S (Pos.to_nat p)) by lia.
      rewrite INR_IZR_INZ, positive_nat_Z.
      change (IZR (Z.neg p)) with (- IZR (Z.pos p)).
      destruct (Pos.to_nat p) as [|k] eqn:Ek;
        [pose proof (Pos2Nat.is_pos p); lia|].
      simpl Init.Nat.pred. simpl pow in *.
      assert (Hk : b ^ k <> 0) by (apply pow_nonzero; exact Hb).
      field. split; assumption.
Qed.

(** The derivative of [powf] in its base, where the power is a real
    function around the base: at a positive base, at a negative base with
    a whole exponent, and anywhere with a whole exponent of at least
    one. *)
Lemma derivable_pt_lim_powf (b n : float) :
  0 < b \/ (whole n /\ (b < 0 \/ 1 <= n)) ->
  derivable_pt_lim (fun v => powf v n) b (n * powf b (n - 1)).
Proof.
  intros [Hpos | [Hw Hd]].
  - rewrite (powf_pos b (n - 1) Hpos).
    apply derivable_pt_lim_locally_ext
      with (f := fun v => Rpower v n) (a := b / 2) (b := b + 1).
    + lra.
    + intros v Hv. symmetry. apply powf_pos. lra.
    + apply derivable_pt_lim_power. exact Hpos.
  - assert (Hz : exists z : Z, n = IZR z) by (exists (Zfloor n); exact Hw).
    clear Hw. destruct Hz as [z ->].
    replace (IZR z - 1) with (IZR (z - 1)) by (rewrite minus_IZR; ring).
    destruct Hd as [Hneg | Hone].
    + rewrite (powf_whole b (z - 1)) by (left; lra).
      apply derivable_pt_lim_locally_ext
        with (f := fun v => powerRZ v z) (a := b - 1) (b := b / 2).
      * lra.
      * intros v Hv. symmetry. apply powf_whole. left. lra.
      * apply derivable_pt_lim_powerRZ. left. lra.
    + assert (Hz : (1 <= z)%Z) by (apply le_IZR; exact Hone).
      rewrite (powf_whole b (z - 1)) by (right; lia).
      apply derivable_pt_lim_ext with (f := fun v => powerRZ v z).
      * intros v. symmetry. apply powf_whole. right. lia.
      * apply derivable_pt_lim_powerRZ. right. exact Hz.
Qed.

(** C4.  Each elementary function returns the outer function at the value
    of its argument [g], with the derivative of the outer function there
    times the derivative of [g]: [Exp], [Sin], [Cos], [Sinh], [Cosh] and
    [Tanh] for every [g]; [Tan] where the cosine of the value is not zero;
    [Log] where the value is positive; [Pow] with the exponent [n] where
    the value is positive, where it is negative and [n] is whole, and
    everywhere when [n] is whole and at least one: these are the points
    around which the outer function is a real function with a
    derivative.  At a positive value [Pow g n] is the real power, and for
    a whole exponent [z] it is the integer power with the derivative
    [z * g.f^(z - 1) * g.d], also at negative values.  For every [g], the
    values of [Tan g], [Log g] and [Pow g n] are [tan g.f], [logf g.f] and
    [powf g.f n], and the derivatives of [Log g], [Cos g] and [Pow g n]
    are [1 / g.f * g.d], [- sin g.f * g.d] and
    [n * powf g.f (n - 1) * g.d]. *)
Theorem elementary_chain_rule (g : Dnum2) (n : float) :
  chain_rule exp g (Exp g) /\
  chain_rule sin g (Sin g) /\
  chain_rule cos g (Cos g) /\
  (cos (f g) <> 0 -> chain_rule tan g (Tan g)) /\
  chain_rule sinh g (Sinh g) /\
  chain_rule cosh g (Cosh g) /\
  chain_rule tanh g (Tanh g) /\
  (0 < f g -> chain_rule ln g (Log g)) /\
  (0 < f g -> chain_rule (fun v => Rpower v n) g (Pow g n)) /\
  (0 < f g \/ (whole n /\ (f g < 0 \/ 1 <= n)) ->
   chain_rule (fun v => powf v n) g (Pow g n)) /\
  (forall z : Z, n = IZR z -> f g <> 0 \/ (1 <= z)%Z ->
     f (Pow g n) = powerRZ (f g) z /\
     d (Pow g n)
     = Vec2.mk (IZR z * powerRZ (f g) (z - 1) * Vec2.x (d g))
               (IZR z * powerRZ (f g) (z - 1) * Vec2.y (d g))) /\
  f (Tan g) = tan (f g) /\
  f (Log g) = logf (f g) /\
  f (Pow g n) = powf (f g) n /\
  d (Log g) = Vec2.mk (1 / f g * Vec2.x (d g)) (1 / f g * Vec2.y (d g)) /\
  d (Cos g) = Vec2.mk (- sin (f g) * Vec2.x (d g))
                      (- sin (f g) * Vec2.y (d g)) /\
  d (Pow g n) = Vec2.mk (n * powf (f g) (n - 1) * Vec2.x (d g))
                        (n * powf (f g) (n - 1) * Vec2.y (d g)).
Proof.
  split.
  { apply chain_rule_direct with (D := exp (f g));
      [reflexivity | apply derivable_pt_lim_exp
      | simpl; unfold expf; ring ..]. }
  split.
  { apply chain_rule_direct with (D := cos (f g));
      [reflexivity | apply derivable_pt_lim_sin
      | simpl; unfold cosf; ring ..]. }
  split.
  { apply chain_rule_direct with (D := - sin (f g));
      [reflexivity | apply derivable_pt_lim_cos
      | simpl; unfold sinf; ring ..]. }
  split; [exact (chain_rule_Tan g)|].
  split.
  { apply chain_rule_direct with (D := cosh (f g));
      [reflexivity | apply derivable_pt_lim_sinh | simpl; ring ..]. }
  split.
  { apply chain_rule_direct with (D := sinh (f g));
      [reflexivity | apply derivable_pt_lim_cosh | simpl; ring ..]. }
  split; [exact (chain_rule_Tanh g)|].
  split.
  { intros Hpos.
    apply chain_rule_direct with (D := / f g);
      [reflexivity | apply derivable_pt_lim_ln; exact Hpos
      | simpl; unfold Rdiv; ring ..]. }
  split.
  { intros Hpos.
    apply chain_rule_direct with (D := n * Rpower (f g) (n - 1));
      [simpl; apply powf_pos; exact Hpos
      | apply derivable_pt_lim_power; exact Hpos
      | simpl; rewrite (powf_pos (f g) (n - 1) Hpos); ring ..]. }
  split.
  { intros Hdom.
    apply chain_rule_direct with (D := n * powf (f g) (n - 1));
      [reflexivity | apply derivable_pt_lim_powf; exact Hdom
      | simpl; ring ..]. }
  split.
  { intros z -> Hd.
    assert (Hn1 : IZR z - 1 = IZR (z - 1)) by (rewrite minus_IZR; ring).
    split.
    - simpl. apply powf_whole. destruct Hd; [left | right]; [assumption | lia].
    - apply Vec2_ext; simpl; rewrite Hn1;
        rewrite (powf_whole (f g) (z - 1))
          by (destruct Hd; [left | right]; [assumption | lia]);
        ring. }
  split; [reflexivity|]. split; [reflexivity|]. split; [reflexivity|].
  split; [apply Vec2_ext; simpl; unfold Rdiv; ring|].
  split; apply Vec2_ext; simpl; unfold sinf; ring.
Qed.

(** The tangent, the logarithm and the square at the dual number with
    value [1] and derivative [(1, 0)], and the square at the one with
    value [-2]. *)
Lemma elementary_chain_rule_witness :
  let g := mkDnum 1 (Vec2.mk 1 0) : Dnum2 in
  let h := mkDnum (-2) (Vec2.mk 1 0) : Dnum2 in
  chain_rule tan g (Tan g) /\
  chain_rule ln g (Log g) /\
  chain_rule (fun v => Rpower v 2) g (Pow g 2) /\
  chain_rule (fun v => powf v 2) h (Pow h 2) /\
  f (Pow h 2) = 4 /\
  d (Pow h 2) = Vec2.mk (-4) 0.
Proof.
  intros g h.
  destruct (elementary_chain_rule g 2)
    as (_ & _ & _ & Htan & _ & _ & _ & Hlog & Hpow & _).
  destruct (elementary_chain_rule h 2)
    as (_ & _ & _ & _ & _ & _ & _ & _ & _ & Hpowf & Hint & _).
  split; [|split; [|split; [|split]]].
  - apply Htan. simpl.
    apply Rgt_not_eq, cos_gt_0.
    + pose proof PI_RGT_0; lra.
    + exact PI2_1.
  - apply Hlog. simpl. lra.
  - apply Hpow. simpl. lra.
  - apply Hpowf. right. split; [apply (whole_IZR 2) | left; simpl; lra].
  - destruct (Hint 2%Z eq_refl) as [Hf Hd]; [left; simpl; lra|].
    rewrite Hf, Hd. split; [simpl; lra | apply Vec2_ext; simpl; lra].
Defined.

(* ================================================================= *)
(** ** Theorems: [ParamSurface] *)

(** C5.  For a surface [self] and parameters [u], [v], [GenVertexData]
    calls [eval] on [U = (u, (1, 0))] and [V = (v, (0, 1))]; with [X], [Y],
    [Z] the results, the position is [(X.f, Y.f, Z.f)], the texture
    coordinate is [(u, v)] and the normal is the cross product, not
    normalized, of [drdU = (X.d.x, Y.d.x, Z.d.x)] and
    [drdV = (X.d.y, Y.d.y, Z.d.y)]. *)
Theorem GenVertexData_sample {S : Type} `{ParamSurface S}
    (self : S) (u v : float) :
  let r := eval self (mkDnum u (Vec2.mk 1 0)) (mkDnum v (Vec2.mk 0 1))
                (Dnum_default, Dnum_default, Dnum_default) in
  let X := fst (fst r) in
  let Y := snd (fst r) in
  let Z := snd r in
  let drdU := Vec3.mk (Vec2.x (d X)) (Vec2.x (d Y)) (Vec2.x (d Z)) in
  let drdV := Vec3.mk (Vec2.y (d X)) (Vec2.y (d Y)) (Vec2.y (d Z)) in
  let vtx := GenVertexData self u v in
  position vtx = Vec3.mk (f X) (f Y) (f Z) /\
  texcoord vtx = Vec2.mk u v /\
  normal vtx = Vec3.cross drdU drdV /\
  normal vtx =
    Vec3.mk (Vec2.x (d Y) * Vec2.y (d Z) - Vec2.x (d Z) * Vec2.y (d Y))
            (Vec2.x (d Z) * Vec2.y (d X) - Vec2.x (d X) * Vec2.y (d Z))
            (Vec2.x (d X) * Vec2.y (d Y) - Vec2.x (d Y) * Vec2.y (d X)).
Proof.
  cbv zeta. unfold GenVertexData.
  destruct (eval self _ _ _) as [[X Y] Z]. simpl.
  repeat split.
Qed.

Lemma int_wrap_small (k : Z) :
  (- 2 ^ 31 <= k < 2 ^ 31)%Z -> int_wrap k = k.
Proof.
  intros Hk. unfold int_wrap. rewrite Z.mod_small; lia.
Qed.

Lemma to_unsigned_small (k : Z) : (0 <= k < 2 ^ 32)%Z -> to_unsigned k = k.
Proof. intros Hk. unfold to_unsigned. apply Z.mod_small. exact Hk. Qed.

Lemma length_upto (hi : Z) : length (upto hi) = Z.to_nat hi.
Proof. unfold upto. rewrite length_map, length_seq. reflexivity. Qed.

Lemma nth_error_upto (hi : Z) (k : nat) :
  (k < Z.to_nat hi)%nat -> nth_error (upto hi) k = Some (Z.of_nat k).
Proof.
  intros Hk. unfold upto.
  rewrite nth_error_map.
  rewrite (nth_error_nth' _ 0%nat) by (rewrite length_seq; exact Hk).
  rewrite seq_nth by exact Hk. reflexivity.
Qed.

Section Loops.
Context {X J : Type}.

(** An inner loop that pushes two elements per round. *)
Lemma fold_push_two (a b : J -> X) (js : list J) (acc : list X) :
  fold_left (fun vt j => (vt ++ [a j]) ++ [b j]) js acc
  = acc ++ flat_map (fun j => [a j; b j]) js.
Proof.
  revert acc. induction js as [|j js IH]; intros acc; simpl.
  - rewrite app_nil_r. reflexivity.
  - rewrite IH. rewrite <- !app_assoc. reflexivity.
Qed.

(** An outer loop each round of which appends one row. *)
Lemma fold_rows (row : J -> list X) (body : list X -> J -> list X) :
  (forall acc i, body acc i = acc ++ row i) ->
  forall (rounds : list J) (acc : list X),
    fold_left body rounds acc = acc ++ flat_map row rounds.
Proof.
  intros Hbody rounds.
  induction rounds as [|i rounds IH]; intros acc; simpl.
  - rewrite app_nil_r. reflexivity.
  - rewrite IH, Hbody, <- app_assoc. reflexivity.
Qed.

Lemma nth_error_two (a b : J -> X) (js : list J) (k : nat) :
  nth_error (flat_map (fun j => [a j; b j]) js) (2 * k)
  = option_map a (nth_error js k) /\
  nth_error (flat_map (fun j => [a j; b j]) js) (2 * k + 1)
  = option_map b (nth_error js k).
Proof.
  revert k. induction js as [|j js IH]; intros k.
  - destruct k; split; simpl; try reflexivity;
      rewrite ?Nat.add_0_r; destruct (k + S k)%nat; reflexivity.
  - destruct k as [|k].
    + split; reflexivity.
    + replace (2 * S k)%nat with (S (S (2 * k))) by lia.
      replace (S (S (2 * k)) + 1)%nat with (S (S (2 * k + 1))) by lia.
      simpl flat_map. cbn [nth_error app]. apply IH.
Qed.

(** Rows of one width laid end to end: the [k]-th window is the [k]-th
    row. *)
Lemma window_of_rows (row : J -> list X) (W : nat) (rounds : list J) :
  (forall i, In i rounds -> length (row i) = W) ->
  forall (k : nat) (i : J),
    nth_error rounds k = Some i ->
    firstn W (skipn (k * W) (flat_map row rounds)) = row i.
Proof.
  induction rounds as [|i0 rounds IH]; intros Hw k i Hk.
  - destruct k; discriminate.
  - assert (Hw0 : length (row i0) = W) by (apply Hw; left; reflexivity).
    destruct k as [|k]; simpl in Hk.
    + injection Hk as ->. simpl.
      rewrite firstn_app, Hw0, Nat.sub_diag. simpl.
      rewrite app_nil_r. apply firstn_all2. lia.
    + simpl flat_map.
      replace (S k * W)%nat with (length (row i0) + k * W)%nat by lia.
      rewrite skipn_app.
      rewrite skipn_all2 by lia.
      replace (length (row i0) + k * W - length (row i0))%nat
        with (k * W)%nat by lia.
      simpl. apply IH; [|exact Hk].
      intros i' Hi'. apply Hw. right. exact Hi'.
Qed.

End Loops.

Section CreateFacts.
Context {S : Type} `{ParamSurface S}.

(** The two vertices that one round of the inner loop pushes. *)
Lemma create_vtxData (self : S) (N M : Z) :
  vtxData (create self N M) =
  flat_map
    (fun i =>
       flat_map
         (fun j =>
            [GenVertexData self (IZR j / IZR M) (IZR i / IZR N);
             GenVertexData self (IZR j / IZR M) (IZR (i + 1) / IZR N)])
         (upto (M + 1)))
    (upto N).
Proof.
  unfold create. cbn [vtxData].
  rewrite fold_rows
    with (row := fun i =>
       flat_map
         (fun j =>
            [GenVertexData self (IZR j / IZR M) (IZR i / IZR N);
             GenVertexData self (IZR j / IZR M) (IZR (i + 1) / IZR N)])
         (upto (M + 1))).
  - reflexivity.
  - intros acc i.
    apply (fold_push_two
             (fun j => GenVertexData self (IZR j / IZR M) (IZR i / IZR N))
             (fun j => GenVertexData self (IZR j / IZR M)
                                     (IZR (i + 1) / IZR N))).
Qed.

Lemma create_counters (self : S) (N M : Z) :
  (0 <= N <= INT_MAX)%Z -> (0 <= M)%Z -> ((M + 1) * 2 <= INT_MAX)%Z ->
  nStrips (create self N M) = N /\
  nVtxPerStrip (create self N M) = (2 * (M + 1))%Z.
Proof.
  unfold INT_MAX. intros HN HM HW. unfold create. cbn [nStrips nVtxPerStrip].
  split.
  - apply to_unsigned_small. lia.
  - rewrite (int_wrap_small (M + 1)) by lia.
    rewrite int_wrap_small by lia.
    rewrite to_unsigned_small by lia. lia.
Qed.

Lemma create_strip (self : S) (N M i : Z) :
  (0 <= N <= INT_MAX)%Z -> (0 <= M)%Z -> ((M + 1) * 2 <= INT_MAX)%Z ->
  (0 <= i < N)%Z ->
  strip (create self N M) i =
  flat_map
    (fun j =>
       [GenVertexData self (IZR j / IZR M) (IZR i / IZR N);
        GenVertexData self (IZR j / IZR M) (IZR (i + 1) / IZR N)])
    (upto (M + 1)).
Proof.
  intros HN HM HW Hi. unfold strip.
  destruct (create_counters self N M HN HM HW) as [_ ->].
  rewrite create_vtxData.
  replace (Z.to_nat (i * (2 * (M + 1))))
    with (Z.to_nat i * Z.to_nat (2 * (M + 1)))%nat by lia.
  rewrite window_of_rows with (i := Z.of_nat (Z.to_nat i)).
  - rewrite Z2Nat.id by lia. reflexivity.
  - intros i' _.
    rewrite flat_map_constant_length with (c := 2%nat)
      by (intros; reflexivity).
    rewrite length_upto. lia.
  - apply nth_error_upto. lia.
Qed.

(** C6.  For grid sizes [N] and [M] that are not negative (and for which
    [(M + 1) * 2] is an [int]), [create] sets up [N] strips of
    [2 * (M + 1)] vertices; in strip [i], for [j] from [0] to [M], the
    vertices at places [2 j] and [2 j + 1] are the samples at
    [(j / M, i / N)] and [(j / M, (i + 1) / N)]; the second vertex of
    column [j] in strip [i - 1] is the first vertex of column [j] in
    strip [i]. *)
Theorem create_strips (self : S) (N M : Z) :
  (0 <= N <= INT_MAX)%Z -> (0 <= M)%Z -> ((M + 1) * 2 <= INT_MAX)%Z ->
  let t := create self N M in
  nStrips t = N /\
  nVtxPerStrip t = (2 * (M + 1))%Z /\
  Z.of_nat (length (vtxData t)) = (N * (2 * (M + 1)))%Z /\
  (forall i : Z, (0 <= i < N)%Z ->
     Z.of_nat (length (strip t i)) = (2 * (M + 1))%Z /\
     forall j : Z, (0 <= j <= M)%Z ->
       nth_error (strip t i) (Z.to_nat (2 * j))
       = Some (GenVertexData self (IZR j / IZR M) (IZR i / IZR N)) /\
       nth_error (strip t i) (Z.to_nat (2 * j + 1))
       = Some (GenVertexData self (IZR j / IZR M) (IZR (i + 1) / IZR N))) /\
  (forall i j : Z, (0 < i < N)%Z -> (0 <= j <= M)%Z ->
     nth_error (strip t (i - 1)) (Z.to_nat (2 * j + 1))
     = nth_error (strip t i) (Z.to_nat (2 * j))).
Proof.
  intros HN HM HW. cbv zeta.
  assert (Hcol : forall i j : Z, (0 <= i < N)%Z -> (0 <= j <= M)%Z ->
     nth_error (strip (create self N M) i) (Z.to_nat (2 * j))
     = Some (GenVertexData self (IZR j / IZR M) (IZR i / IZR N)) /\
     nth_error (strip (create self N M) i) (Z.to_nat (2 * j + 1))
     = Some (GenVertexData self (IZR j / IZR M) (IZR (i + 1) / IZR N))).
  { intros i j Hi Hj.
    rewrite create_strip by assumption.
    replace (Z.to_nat (2 * j)) with (2 * Z.to_nat j)%nat by lia.
    replace (Z.to_nat (2 * j + 1)) with (2 * Z.to_nat j + 1)%nat by lia.
    destruct (nth_error_two
      (fun j0 => GenVertexData self (IZR j0 / IZR M) (IZR i / IZR N))
      (fun j0 => GenVertexData self (IZR j0 / IZR M) (IZR (i + 1) / IZR N))
      (upto (M + 1)) (Z.to_nat j)) as [E0 E1].
    rewrite E0, E1.
    rewrite nth_error_upto by lia. simpl.
    rewrite Z2Nat.id by lia. split; reflexivity. }
  destruct (create_counters self N M HN HM HW) as [HnS HnV].
  split; [exact HnS|]. split; [exact HnV|]. split; [|split].
  - rewrite create_vtxData.
    rewrite flat_map_constant_length with (c := (2 * Z.to_nat (M + 1))%nat).
    + rewrite length_upto. lia.
    + intros i _.
      rewrite flat_map_constant_length with (c := 2%nat)
        by (intros; reflexivity).
      rewrite length_upto. lia.
  - intros i Hi. split.
    + rewrite create_strip by assumption.
      rewrite flat_map_constant_length with (c := 2%nat)
        by (intros; reflexivity).
      rewrite length_upto. lia.
    + intros j Hj. apply Hcol; assumption.
  - intros i j Hi Hj.
    destruct (Hcol (i - 1)%Z j) as [_ E1]; [lia | exact Hj |].
    destruct (Hcol i j) as [E0 _]; [lia | exact Hj |].
    rewrite E1, E0.
    replace (i - 1 + 1)%Z with i by lia. reflexivity.
Qed.

End CreateFacts.

(* ================================================================= *)
(** ** Theorems: [Noise] *)

(** The tables that [initA] builds from freshly constructed members: the
    amplitudes, and the phases in the order in which [rand()] gave them. *)
Lemma initA_tables (RAND_MAX : Z) (st : RandState) :
  let c (x : float) : Dnum2 := Dnum_of_float x in
  let r (k : nat) : float :=
    IZR (rand_values st (rand_calls st + k)) / IZR RAND_MAX in
  initA RAND_MAX Noise_members st =
  (mkNoise
     [[c 0; c (1 / sqrt 1); c (1 / sqrt 4)];
      [c (1 / sqrt 1); c (1 / sqrt 2); c (1 / sqrt 5)];
      [c (1 / sqrt 4); c (1 / sqrt 5); c (1 / sqrt 8)]]
     [[Dnum_default; c (r 0%nat); c (r 1%nat)];
      [c (r 2%nat); c (r 3%nat); c (r 4%nat)];
      [c (r 5%nat); c (r 6%nat); c (r 7%nat)]],
   mkRandState (rand_values st) (rand_calls st + 8)).
Proof.
  cbv zeta.
  unfold initA, Noise_members, upto, Noise_n. simpl.
  unfold rand, Table_set, sqrtf. simpl.
  replace (rand_calls st + 0)%nat with (rand_calls st) by lia.
  replace (rand_calls st + 1)%nat with (S (rand_calls st)) by lia.
  replace (rand_calls st + 2)%nat with (S (S (rand_calls st))) by lia.
  replace (rand_calls st + 3)%nat with (S (S (S (rand_calls st)))) by lia.
  replace (rand_calls st + 4)%nat
    with (S (S (S (S (rand_calls st))))) by lia.
  replace (rand_calls st + 5)%nat
    with (S (S (S (S (S (rand_calls st)))))) by lia.
  replace (rand_calls st + 6)%nat
    with (S (S (S (S (S (S (rand_calls st))))))) by lia.
  replace (rand_calls st + 7)%nat
    with (S (S (S (S (S (S (S (rand_calls st)))))))) by lia.
  replace (rand_calls st + 8)%nat
    with (S (S (S (S (S (S (S (S (rand_calls st))))))))) by lia.
  reflexivity.
Qed.

Lemma rand_fraction_bounds (RAND_MAX r : Z) :
  (32767 <= RAND_MAX)%Z -> (0 <= r <= RAND_MAX)%Z ->
  0 <= IZR r / IZR RAND_MAX <= 1.
Proof.
  intros HM [H0 H1].
  assert (Hpos : 0 < IZR RAND_MAX) by (apply IZR_lt; lia).
  apply IZR_le in H0. apply IZR_le in H1.
  split.
  - apply Rmult_le_pos; [exact H0 | left; apply Rinv_0_lt_compat; exact Hpos].
  - apply Rmult_le_reg_r with (r := IZR RAND_MAX); [exact Hpos|].
    unfold Rdiv. rewrite Rmult_assoc, Rinv_l by lra. lra.
Qed.

Lemma f_fold_add (T : Z -> Dnum2) (t : Z -> R) (js : list Z) :
  (forall j, f (T j) = t j) ->
  forall Y0 : Dnum2,
    f (fold_left (fun Y j => (Y + T j)%D) js Y0)
    = fold_left (fun acc j => acc + t j) js (f Y0).
Proof.
  intros HT. induction js as [|j js IH]; intros Y0; simpl.
  - reflexivity.
  - rewrite IH. simpl. rewrite HT. reflexivity.
Qed.

Lemma f_fold_add_grid (T : Z -> Z -> Dnum2) (t : Z -> Z -> R)
    (rounds js : list Z) :
  (forall i j, f (T i j) = t i j) ->
  forall Y0 : Dnum2,
    f (fold_left
         (fun Y i => fold_left (fun Y j => (Y + T i j)%D) js Y) rounds Y0)
    = fold_left
        (fun acc i => fold_left (fun acc j => acc + t i j) js acc)
        rounds (f Y0).
Proof.
  intros HT. induction rounds as [|i rounds IH]; intros Y0; simpl.
  - reflexivity.
  - rewrite IH. rewrite (f_fold_add (T i) (t i)) by (intros; apply HT).
    reflexivity.
Qed.

(** The value of one term of the sum in [Noise::eval]. *)
Lemma Noise_term_value (X Z Bc Ac : Dnum2) (i j : float) :
  f (Cos ((X * Dnum_of_float i + Z * Dnum_of_float j + Bc)
          * Dnum_of_float PI * Dnum_of_float 2) * Ac)%D
  = f Ac * cos (2 * PI * (i * f X + j * f Z + f Bc)).
Proof.
  simpl. unfold cosf. rewrite Rmult_comm. f_equal. f_equal. ring.
Qed.

(** What [Noise::eval] returns, for any content of the two tables. *)
Lemma Noise_eval_values (self : Noise) (U V : Dnum2)
    (XYZ : Dnum2 * Dnum2 * Dnum2) :
  let r := Noise_eval self U V XYZ in
  f (fst (fst r)) = f U - 0.5 /\
  f (snd r) = f V - 0.5 /\
  f (snd (fst r)) =
    grid_sum (fun i j =>
      f (Table_get (A self) i j)
      * cos (2 * PI * (IZR i * (f U - 0.5) + IZR j * (f V - 0.5)
                       + f (Table_get (B self) i j)))).
Proof.
  cbv zeta. unfold Noise_eval. cbn [fst snd].
  split; [reflexivity|]. split; [reflexivity|].
  unfold grid_sum.
  rewrite f_fold_add_grid with
    (t := fun i j =>
      f (Table_get (A self) i j)
      * cos (2 * PI * (IZR i * (f U - 0.5) + IZR j * (f V - 0.5)
                       + f (Table_get (B self) i j)))).
  - reflexivity.
  - intros i j. rewrite Noise_term_value. reflexivity.
Qed.

Lemma grid_cases (i j : Z) :
  (0 <= i < Noise_n)%Z -> (0 <= j < Noise_n)%Z ->
  (i = 0 \/ i = 1 \/ i = 2)%Z /\ (j = 0 \/ j = 1 \/ j = 2)%Z.
Proof. unfold Noise_n. lia. Qed.

(** C7, as the program has it.  The terrain returns [X = u - 0.5],
    [Z = v - 0.5] and [Y] the sum over the 3 by 3 grid of
    [A[i][j] * cos (2 pi (i (u - 0.5) + j (v - 0.5) + B[i][j]))], where
    [A[0][0]] is zero, [A[i][j]] is [1 / sqrt (i i + j j)] elsewhere,
    [B[0][0]] is zero and every other [B[i][j]] is the quotient of one
    value of [rand()] by [RAND_MAX], drawn by [initA] in the order of the
    loops: a phase between [0] and [1], both ends included. *)
Theorem Noise_terrain (RAND_MAX : Z) (st : RandState) (U V : Dnum2)
    (XYZ : Dnum2 * Dnum2 * Dnum2) :
  (32767 <= RAND_MAX)%Z ->
  rand_in_range RAND_MAX st ->
  let self := fst (initA RAND_MAX Noise_members st) in
  let a (i j : Z) := f (Table_get (A self) i j) in
  let b (i j : Z) := f (Table_get (B self) i j) in
  let r := Noise_eval self U V XYZ in
  f (fst (fst r)) = f U - 0.5 /\
  f (snd r) = f V - 0.5 /\
  f (snd (fst r)) =
    grid_sum (fun i j =>
      a i j * cos (2 * PI * (IZR i * (f U - 0.5) + IZR j * (f V - 0.5)
                             + b i j))) /\
  Noise_n = 3%Z /\
  a 0%Z 0%Z = 0 /\
  b 0%Z 0%Z = 0 /\
  (forall i j : Z, (0 <= i < Noise_n)%Z -> (0 <= j < Noise_n)%Z ->
     (i, j) <> (0, 0)%Z ->
     a i j = 1 / sqrt (IZR i * IZR i + IZR j * IZR j) /\
     b i j = IZR (rand_values st (rand_calls st + Z.to_nat (3 * i + j - 1)))
             / IZR RAND_MAX) /\
  (forall i j : Z, (0 <= i < Noise_n)%Z -> (0 <= j < Noise_n)%Z ->
     0 <= b i j <= 1).
Proof.
  intros HM Hrand. cbv zeta.
  pose proof (initA_tables RAND_MAX st) as E. cbv zeta in E.
  rewrite E. cbn [fst].
  destruct (Noise_eval_values
              (fst (initA RAND_MAX Noise_members st)) U V XYZ)
    as (HX & HZ & HY).
  rewrite E in HX, HZ, HY. cbn [fst] in HX, HZ, HY.
  split; [exact HX|]. split; [exact HZ|]. split; [exact HY|].
  split; [reflexivity|]. split; [reflexivity|]. split; [reflexivity|].
  split.
  - intros i j Hi Hj Hne.
    destruct (grid_cases i j Hi Hj) as [[-> | [-> | ->]] [-> | [-> | ->]]];
      try (exfalso; apply Hne; reflexivity);
      (split; [unfold Table_get; simpl; f_equal; f_equal; lra | reflexivity]).
  - intros i j Hi Hj.
    destruct (grid_cases i j Hi Hj) as [[-> | [-> | ->]] [-> | [-> | ->]]];
      unfold Table_get; simpl;
      try (apply rand_fraction_bounds; [exact HM | apply Hrand]).
    lra.
Qed.

(** With a generator that returns [RAND_MAX] the phase [B[0][1]] is [1]:
    it is not below [1]. *)
Lemma Noise_phase_reaches_one :
  let st := mkRandState (fun _ => 2147483647%Z) 0 in
  let self := fst (initA 2147483647 Noise_members st) in
  rand_in_range 2147483647 st /\
  f (Table_get (B self) 0 1) = 1 /\
  ~ (0 <= f (Table_get (B self) 0 1) < 1).
Proof.
  cbv zeta.
  pose proof (initA_tables 2147483647
                (mkRandState (fun _ => 2147483647%Z) 0)) as E.
  cbv zeta in E. rewrite E. unfold Table_get. simpl.
  split; [intros k; simpl; lia|].
  assert (E1 : 2147483647 / 2147483647 = 1) by lra.
  rewrite E1. split; [reflexivity | lra].
Qed.

(** The tables drawn from a generator that always returns [0]. *)
Lemma Noise_terrain_witness :
  let st := mkRandState (fun _ => 0%Z) 0 in
  let self := fst (initA 32767 Noise_members st) in
  f (Table_get (A self) 0 0) = 0 /\
  0 <= f (Table_get (B self) 1 2) <= 1.
Proof.
  cbv zeta.
  destruct (Noise_terrain 32767 (mkRandState (fun _ => 0%Z) 0)
              Dnum_default Dnum_default
              (Dnum_default, Dnum_default, Dnum_default))
    as (_ & _ & _ & _ & Ha & _ & _ & Hb).
  - lia.
  - intros k. simpl. lia.
  - split; [exact Ha|]. apply Hb; unfold Noise_n; lia.
Defined.

(** A grid of two strips and three columns of the terrain. *)
Lemma create_strips_witness :
  let t := create Noise_members 2 3 in
  nStrips t = 2%Z /\ nVtxPerStrip t = 8%Z /\
  Z.of_nat (length (vtxData t)) = 16%Z.
Proof.
  cbv zeta.
  destruct (create_strips Noise_members 2 3) as (H1 & H2 & H3 & _);
    [unfold INT_MAX; lia | lia | unfold INT_MAX; lia |].
  split; [exact H1|]. split; [exact H2 | exact H3].
Defined.

(* ================================================================= *)
(** ** Theorems: [Body::Animate] *)

Section DynamicsFacts.
Context {fw : Framework}.

(** The tether point of a body: the local point [(0, -0.5, 0)] carried to
    world space by the model matrix of the pose the body has now. *)
Lemma Animate_vars_l (self : Body) (tstart tend : float) :
  l (Animate_vars self tstart tend) =
  let ll := vec4_mul_mat4 (Vec4.mk 0 (-0.5) 0 1)
                          (fst (SetModelingTransform (object self))) in
  Vec3.mk (Vec4.x ll) (Vec4.y ll) (Vec4.z ll).
Proof. reflexivity. Qed.

(** C1.  In a step taken while the simulation runs, with [l] the tether
    point of the pose before the step: the spring force [K] is the zero
    vector when the distance from the anchor [s] to [l] is at most the
    rest length [l0], and it is [D * (s - l) * (|s - l| - l0)] when that
    distance is greater than [l0]. *)
Theorem spring_force_threshold (self : Body) (tstart tend : float) :
  let a := Animate_vars self tstart tend in
  let sl := Vec3.sub (s self) (l a) in
  (Vec3.length sl <= l0 self -> K a = Vec3.zero) /\
  (Vec3.length sl > l0 self ->
   K a = Vec3.mk (D self * Vec3.x sl * (Vec3.length sl - l0 self))
                 (D self * Vec3.y sl * (Vec3.length sl - l0 self))
                 (D self * Vec3.z sl * (Vec3.length sl - l0 self))).
Proof.
  cbv zeta. unfold Animate_vars. simpl.
  set (l_ := Vec3.mk _ _ _).
  destruct (Rgt_dec (Vec3.length (Vec3.sub (s self) l_)) (l0 self))
    as [Hgt|Hle].
  - split; intros Hc.
    + exfalso. lra.
    + apply Vec3_ext; simpl; ring.
  - split; intros Hc.
    + reflexivity.
    + contradiction.
Qed.

(** C2.  While [goon] is false a call of [Animate] returns the body it was
    given: every member keeps its value. *)
Theorem Animate_not_started (self : Body) (tstart tend : float) :
  Animate false self tstart tend = self.
Proof. reflexivity. Qed.

(** [goon] is false from the start until a key is pressed, and the ticks
    before that leave the world as it was. *)
Lemma run_before_KeyPressed (b : Body) (es : list event) :
  ~ In KeyPressed es -> run (World_start b) es = World_start b.
Proof.
  unfold run. induction es as [|e es IH]; intros Hno; [reflexivity|].
  destruct e as [|t0 t1].
  - exfalso. apply Hno. left. reflexivity.
  - simpl. apply IH. intros Hin. apply Hno. right. exact Hin.
Qed.

(** After a key press [goon] is true for good. *)
Lemma run_goon_stays (wd : World) (es : list event) :
  goon wd = true -> goon (run wd es) = true.
Proof.
  unfold run. revert wd.
  induction es as [|e es IH]; intros wd Hg; [exact Hg|].
  simpl. apply IH. destruct e; [reflexivity | exact Hg].
Qed.

(** With zero stiffness the spring force vanishes at any distance. *)
Lemma K_zero_stiffness (self : Body) (tstart tend : float) :
  D self = 0 -> K (Animate_vars self tstart tend) = Vec3.zero.
Proof.
  intros HD. unfold Animate_vars. simpl.
  destruct (Rgt_dec _ _); [|reflexivity].
  apply Vec3_ext; simpl; rewrite HD; ring.
Qed.

(** C8.  In a step taken while the simulation runs, the new translation is
    the old one plus the velocity at the start of the step times [dt]; the
    net force is [F = m * g + K - ro * v] with that same velocity, the
    momentum is [p = m * v + F * dt] and the new velocity is [p / m].  With
    [m = 1], [g = (0, -5, 0)], zero velocity, zero stiffness and
    [dt = 0.1] the new velocity is [(0, -0.5, 0)] and the translation is
    the one before the step. *)
Theorem Animate_linear_step (self : Body) (tstart tend : float) :
  let a := Animate_vars self tstart tend in
  let self' := Animate true self tstart tend in
  translation (object self') =
    Vec3.add (translation (object self))
             (Vec3.mulr (v self) (tend - tstart)) /\
  F a = Vec3.sub (Vec3.add (Vec3.mull (m self) (g self)) (K a))
                 (Vec3.mull (ro self) (v self)) /\
  p a = Vec3.add (Vec3.mull (m self) (v self))
                 (Vec3.mulr (F a) (tend - tstart)) /\
  v self' = Vec3.div (p a) (m self) /\
  (m self = 1 -> g self = Vec3.mk 0 (-5) 0 -> v self = Vec3.zero ->
   D self = 0 -> tend - tstart = 0.1 ->
   v self' = Vec3.mk 0 (-0.5) 0 /\
   translation (object self') = translation (object self)).
Proof.
  cbv zeta.
  split; [reflexivity|]. split; [reflexivity|].
  split; [reflexivity|]. split; [reflexivity|].
  intros Hm Hg Hv HD Hdt.
  pose proof (K_zero_stiffness self tstart tend HD) as HK.
  split.
  - change (v (Animate true self tstart tend))
      with (Vec3.div (p (Animate_vars self tstart tend)) (m self)).
    change (p (Animate_vars self tstart tend))
      with (Vec3.add (Vec3.mull (m self) (v self))
              (Vec3.mulr
                 (Vec3.sub
                    (Vec3.add (Vec3.mull (m self) (g self))
                              (K (Animate_vars self tstart tend)))
                    (Vec3.mull (ro self) (v self)))
                 (tend - tstart))).
    rewrite HK, Hm, Hg, Hv, Hdt.
    apply Vec3_ext; simpl; lra.
  - change (translation (object (Animate true self tstart tend)))
      with (Vec3.add (translation (object self))
                     (Vec3.mulr (v self) (tend - tstart))).
    rewrite Hv. apply Vec3_ext; simpl; ring.
Qed.

(** C9.  In a step taken while the simulation runs:
    [I = m * (scale.x * scale.x + scale.y * scale.y) / 12]; the torque is
    [(l - translation) x K - kappa * w], with the translation already
    advanced by this step; the angular momentum is [L = I * w + torque * dt]
    and the new angular velocity is [L / I]; the new rotation angle is the
    old one minus [dot(rotationAxis, w) * dt] with the new angular
    velocity [w]. *)
Theorem Animate_angular_step (self : Body) (tstart tend : float) :
  let a := Animate_vars self tstart tend in
  let self' := Animate true self tstart tend in
  let o := object self in
  Inertia a =
    m self * (Vec3.x (scale o) * Vec3.x (scale o)
              + Vec3.y (scale o) * Vec3.y (scale o)) / 12 /\
  torque a =
    Vec3.sub (Vec3.cross (Vec3.sub (l a) (translation (object self'))) (K a))
             (Vec3.mull (kappa self) (w self)) /\
  L a = Vec3.add (Vec3.mull (Inertia a) (w self))
                 (Vec3.mulr (torque a) (tend - tstart)) /\
  w self' = Vec3.div (L a) (Inertia a) /\
  rotationAngle (object self') =
    rotationAngle o - Vec3.dot (rotationAxis o) (w self') * (tend - tstart) /\
  rotationAxis (object self') = rotationAxis o.
Proof.
  cbv zeta.
  split; [reflexivity|]. split; [reflexivity|]. split; [reflexivity|].
  split; [|split; reflexivity].
  change (w (Animate true self tstart tend))
    with (Vec3.mull (1 / Inertia (Animate_vars self tstart tend))
                    (L (Animate_vars self tstart tend))).
  apply Vec3_ext; simpl; unfold Rdiv; ring.
Qed.

(** C10.  A step changes at most the translation, the velocity [v], the
    angular velocity [w], the rotation angle and the two stored matrices:
    the result is the body it was given with those six members replaced.
    The mass [m], gravity [g], the drag coefficients [ro] and [kappa], the
    anchor [s], the stiffness [D], the rest length [l0], the scale and the
    rotation axis keep their values in every call. *)
Theorem Animate_frame (started : bool) (self : Body) (tstart tend : float) :
  let self' := Animate started self tstart tend in
  let o := object self in
  self' =
    mkBody (mkObject (shader o) (material o) (texture o) (geometry o)
                     (scale o) (translation (object self')) (rotationAxis o)
                     (rotationAngle (object self')))
           (m self) (g self) (v self') (ro self) (s self)
           (M self') (Minv self') (D self) (l0 self) (w self') (kappa self) /\
  m self' = m self /\ g self' = g self /\
  ro self' = ro self /\ kappa self' = kappa self /\
  s self' = s self /\ D self' = D self /\ l0 self' = l0 self /\
  scale (object self') = scale o /\
  rotationAxis (object self') = rotationAxis o.
Proof.
  cbv zeta. destruct started.
  - repeat split.
  - destruct self as [[] ]. repeat split.
Qed.

End DynamicsFacts.

(* ================================================================= *)
(** ** The scene's cube *)

Lemma Vec3_length_y (c : float) : 0 <= c -> Vec3.length (Vec3.mk 0 c 0) = c.
Proof.
  intros Hc. unfold Vec3.length, Vec3.dot. simpl.
  replace (0 * 0 + c * c + 0 * 0) with (c * c) by ring.
  apply sqrt_square. exact Hc.
Qed.

(** With the matrices of [Mat4], a body that is not rotated and turns
    about the z axis has its tether point half a scaled unit below its
    centre. *)
Lemma tether_upright (self : @Body Framework_Mat4) (tstart tend : float) :
  rotationAngle (object self) = 0 ->
  rotationAxis (object self) = Vec3.mk 0 0 1 ->
  l (Animate_vars self tstart tend) =
  Vec3.mk (Vec3.x (translation (object self)))
          (Vec3.y (translation (object self))
           - 0.5 * Vec3.y (scale (object self)))
          (Vec3.z (translation (object self))).
Proof.
  destruct self as [[sh ma te ge [sx sy sz] [tx ty tz] axis angle]
                    m_ g_ v_ ro_ s_ M_ Minv_ D_ l0_ w_ kappa_].
  cbn [object rotationAngle rotationAxis translation scale].
  intros -> ->.
  rewrite Animate_vars_l.
  unfold SetModelingTransform.
  cbn [fst object rotationAngle rotationAxis translation scale].
  assert (E : Vec3.length (Vec3.mk 0 0 1) = 1).
  { unfold Vec3.length, Vec3.dot. simpl.
    replace (0 * 0 + 0 * 0 + 1 * 1) with 1 by ring. apply sqrt_1. }
  cbn [vec4_mul_mat4 mat4_mul ScaleMatrix RotationMatrix TranslateMatrix
       Framework_Mat4].
  unfold Mat4.Rotation. rewrite E, cos_0, sin_0.
  apply Vec3_ext; cbv [Mat4.vmul Mat4.mul Mat4.vadd Mat4.vscale Mat4.Scale
    Mat4.Translate Mat4.r0 Mat4.r1 Mat4.r2 Mat4.r3 Vec4.x Vec4.y Vec4.z Vec4.w
    Vec3.x Vec3.y Vec3.z Vec3.mulr]; lra.
Qed.

Lemma cubeObject_tether (tstart tend : float) :
  Vec3.sub (s cubeObject) (l (Animate_vars cubeObject tstart tend))
  = Vec3.mk 0 0.75 0.
Proof.
  rewrite tether_upright by reflexivity.
  apply Vec3_ext; simpl; lra.
Qed.

Lemma cubeLow_tether (tstart tend : float) :
  Vec3.sub (s cubeLow) (l (Animate_vars cubeLow tstart tend))
  = Vec3.mk 0 5.75 0.
Proof.
  rewrite tether_upright by reflexivity.
  apply Vec3_ext; simpl; lra.
Qed.

(** At its starting place the cube hangs within the rest length and the
    spring is slack; moved down to the origin it is pulled upwards. *)
Lemma spring_force_threshold_witness :
  K (Animate_vars cubeObject 0 0.1) = Vec3.zero /\
  K (Animate_vars cubeLow 0 0.1) = Vec3.mk 0 (5.75 * 2.75) 0.
Proof.
  split.
  - apply (proj1 (spring_force_threshold cubeObject 0 0.1)).
    rewrite cubeObject_tether, Vec3_length_y by lra. simpl. lra.
  - rewrite (proj2 (spring_force_threshold cubeLow 0 0.1)).
    + rewrite cubeLow_tether, Vec3_length_y by lra.
      apply Vec3_ext; simpl; lra.
    + rewrite cubeLow_tether, Vec3_length_y by lra. simpl. lra.
Defined.

(** The free cube after one step of a tenth of a second. *)
Lemma Animate_linear_step_witness :
  v (Animate true cubeFree 0 0.1) = Vec3.mk 0 (-0.5) 0 /\
  translation (object (Animate true cubeFree 0 0.1)) = Vec3.mk 0 5 0.
Proof.
  destruct (Animate_linear_step cubeFree 0 0.1) as (_ & _ & _ & _ & Hs).
  destruct Hs as [Hv Ht];
    [reflexivity | reflexivity | reflexivity | reflexivity | lra |].
  split; [exact Hv | rewrite Ht; reflexivity].
Defined.

(* ================================================================= *)
(** * Further properties *)

(* ================================================================= *)
(** ** Dual numbers compute partial derivatives *)

Lemma tracks_ext (H1 H2 : R -> R -> R) (u v : R) (r : Dnum2) :
  (forall a b, H1 a b = H2 a b) -> tracks H1 u v r -> tracks H2 u v r.
Proof.
  intros E (Hf & Hx & Hy). split; [|split].
  - rewrite Hf. apply E.
  - apply derivable_pt_lim_ext with (f := fun t => H1 t v);
      [intros t; apply E | exact Hx].
  - apply derivable_pt_lim_ext with (f := fun t => H1 u t);
      [intros t; apply E | exact Hy].
Qed.

Lemma tracks_const (c u v : R) : tracks (fun _ _ => c) u v (Dnum_of_float c).
Proof.
  split; [reflexivity|].
  split; apply (derivable_pt_lim_const c).
Qed.

Lemma tracks_seed_u (u v : R) :
  tracks (fun a _ => a) u v (mkDnum u (Vec2.mk 1 0)).
Proof.
  split; [reflexivity|]. split.
  - apply derivable_pt_lim_id.
  - apply (derivable_pt_lim_const u).
Qed.

Lemma tracks_seed_v (u v : R) :
  tracks (fun _ b => b) u v (mkDnum v (Vec2.mk 0 1)).
Proof.
  split; [reflexivity|]. split.
  - apply (derivable_pt_lim_const v).
  - apply derivable_pt_lim_id.
Qed.

(** X1.  The two numbers that [GenVertexData] hands to [eval] carry the
    two parameters themselves, and a [float] converted to a dual number
    carries a constant. *)
Theorem seeds_track (u v c : R) :
  tracks (fun a _ => a) u v (mkDnum u (Vec2.mk 1 0)) /\
  tracks (fun _ b => b) u v (mkDnum v (Vec2.mk 0 1)) /\
  tracks (fun _ _ => c) u v (Dnum_of_float c).
Proof.
  split; [apply tracks_seed_u|].
  split; [apply tracks_seed_v | apply tracks_const].
Qed.

Lemma tracks_add (H1 H2 : R -> R -> R) (u v : R) (a b : Dnum2) :
  tracks H1 u v a -> tracks H2 u v b ->
  tracks (fun x y => H1 x y + H2 x y) u v (a + b)%D.
Proof.
  intros (Ha & Hax & Hay) (Hb & Hbx & Hby). split; [|split].
  - simpl. rewrite Ha, Hb. reflexivity.
  - exact (derivable_pt_lim_plus _ _ _ _ _ Hax Hbx).
  - exact (derivable_pt_lim_plus _ _ _ _ _ Hay Hby).
Qed.

Lemma tracks_sub (H1 H2 : R -> R -> R) (u v : R) (a b : Dnum2) :
  tracks H1 u v a -> tracks H2 u v b ->
  tracks (fun x y => H1 x y - H2 x y) u v (a - b)%D.
Proof.
  intros (Ha & Hax & Hay) (Hb & Hbx & Hby). split; [|split].
  - simpl. rewrite Ha, Hb. reflexivity.
  - exact (derivable_pt_lim_minus _ _ _ _ _ Hax Hbx).
  - exact (derivable_pt_lim_minus _ _ _ _ _ Hay Hby).
Qed.

Lemma tracks_mul (H1 H2 : R -> R -> R) (u v : R) (a b : Dnum2) :
  tracks H1 u v a -> tracks H2 u v b ->
  tracks (fun x y => H1 x y * H2 x y) u v (a * b)%D.
Proof.
  intros (Ha & Hax & Hay) (Hb & Hbx & Hby). split; [|split].
  - simpl. rewrite Ha, Hb. reflexivity.
  - pose proof (derivable_pt_lim_mult _ _ _ _ _ Hax Hbx) as Hm.
    apply derivable_pt_lim_eq with (2 := Hm).
    simpl. rewrite Ha, Hb. ring.
  - pose proof (derivable_pt_lim_mult _ _ _ _ _ Hay Hby) as Hm.
    apply derivable_pt_lim_eq with (2 := Hm).
    simpl. rewrite Ha, Hb. ring.
Qed.

Lemma tracks_div (H1 H2 : R -> R -> R) (u v : R) (a b : Dnum2) :
  H2 u v <> 0 ->
  tracks H1 u v a -> tracks H2 u v b ->
  tracks (fun x y => H1 x y / H2 x y) u v (a / b)%D.
Proof.
  intros Hnz (Ha & Hax & Hay) (Hb & Hbx & Hby). split; [|split].
  - simpl. rewrite Ha, Hb. reflexivity.
  - pose proof (derivable_pt_lim_div _ _ _ _ _ Hax Hbx Hnz) as Hm.
    apply derivable_pt_lim_eq with (2 := Hm).
    simpl. rewrite Ha, Hb. unfold Rsqr. field. exact Hnz.
  - pose proof (derivable_pt_lim_div _ _ _ _ _ Hay Hby Hnz) as Hm.
    apply derivable_pt_lim_eq with (2 := Hm).
    simpl. rewrite Ha, Hb. unfold Rsqr. field. exact Hnz.
Qed.

(** X2.  The four operators keep the partial derivatives exact: when [a]
    and [b] carry [H1] and [H2], their sum, difference and product carry
    the sum, difference and product of the functions, and their quotient
    carries the quotient where [H2] is not zero. *)
Theorem arithmetic_tracks (H1 H2 : R -> R -> R) (u v : R) (a b : Dnum2) :
  tracks H1 u v a -> tracks H2 u v b ->
  tracks (fun x y => H1 x y + H2 x y) u v (a + b)%D /\
  tracks (fun x y => H1 x y - H2 x y) u v (a - b)%D /\
  tracks (fun x y => H1 x y * H2 x y) u v (a * b)%D /\
  (H2 u v <> 0 -> tracks (fun x y => H1 x y / H2 x y) u v (a / b)%D).
Proof.
  intros Ha Hb.
  split; [apply tracks_add; assumption|].
  split; [apply tracks_sub; assumption|].
  split; [apply tracks_mul; assumption|].
  intros Hnz. apply tracks_div; assumption.
Qed.

(** A function of one variable applied to a carried function, with its
    derivative at the value multiplied onto the derivative. *)
Lemma tracks_comp (e : R -> R) (E : R) (H : R -> R -> R) (u v : R)
    (g r : Dnum2) :
  tracks H u v g ->
  derivable_pt_lim e (f g) E ->
  f r = e (f g) ->
  Vec2.x (d r) = E * Vec2.x (d g) ->
  Vec2.y (d r) = E * Vec2.y (d g) ->
  tracks (fun x y => e (H x y)) u v r.
Proof.
  intros (Hg & Hgx & Hgy) He Hf Hx Hy. split; [|split].
  - rewrite Hf, Hg. reflexivity.
  - rewrite Hx. rewrite Hg in He.
    exact (derivable_pt_lim_comp (fun t => H t v) e u _ _ Hgx He).
  - rewrite Hy. rewrite Hg in He.
    exact (derivable_pt_lim_comp (fun t => H u t) e v _ _ Hgy He).
Qed.

Lemma tracks_Cos (H : R -> R -> R) (u v : R) (g : Dnum2) :
  tracks H u v g -> tracks (fun x y => cos (H x y)) u v (Cos g).
Proof.
  intros Hg.
  apply tracks_comp with (E := - sin (f g)) (g := g);
    [exact Hg | apply derivable_pt_lim_cos | reflexivity
    | simpl; unfold sinf; ring ..].
Qed.

(** X3.  The elementary functions keep the partial derivatives exact: when
    [g] carries [H], [Exp g] carries [exp o H], and likewise [Sin], [Cos],
    [Sinh], [Cosh], [Tanh]; [Tan g] carries [tan o H] where the cosine of
    the value is not zero; [Log g] and [Pow g n] carry the logarithm and
    the power of [H] where the value is positive. *)
Theorem elementary_tracks (H : R -> R -> R) (u v : R) (g : Dnum2)
    (n : float) :
  tracks H u v g ->
  tracks (fun x y => exp (H x y)) u v (Exp g) /\
  tracks (fun x y => sin (H x y)) u v (Sin g) /\
  tracks (fun x y => cos (H x y)) u v (Cos g) /\
  (cos (H u v) <> 0 -> tracks (fun x y => tan (H x y)) u v (Tan g)) /\
  tracks (fun x y => sinh (H x y)) u v (Sinh g) /\
  tracks (fun x y => cosh (H x y)) u v (Cosh g) /\
  tracks (fun x y => tanh (H x y)) u v (Tanh g) /\
  (0 < H u v -> tracks (fun x y => ln (H x y)) u v (Log g)) /\
  (0 < H u v -> tracks (fun x y => Rpower (H x y) n) u v (Pow g n)).
Proof.
  intros Hg. pose proof Hg as (Hval & _ & _).
  split.
  { apply tracks_comp with (E := exp (f g)) (g := g);
      [exact Hg | apply derivable_pt_lim_exp | reflexivity
      | simpl; unfold expf; ring ..]. }
  split.
  { apply tracks_comp with (E := cos (f g)) (g := g);
      [exact Hg | apply derivable_pt_lim_sin | reflexivity
      | simpl; unfold cosf; ring ..]. }
  split; [apply tracks_Cos; exact Hg|].
  split.
  { intros Hc. rewrite <- Hval in Hc.
    destruct (chain_rule_Tan g Hc) as (Hf & E & HE & Hd).
    apply tracks_comp with (E := E) (g := g);
      [exact Hg | exact HE | exact Hf | rewrite Hd; reflexivity ..]. }
  split.
  { apply tracks_comp with (E := cosh (f g)) (g := g);
      [exact Hg | apply derivable_pt_lim_sinh | reflexivity
      | simpl; ring ..]. }
  split.
  { apply tracks_comp with (E := sinh (f g)) (g := g);
      [exact Hg | apply derivable_pt_lim_cosh | reflexivity
      | simpl; ring ..]. }
  split.
  { destruct (chain_rule_Tanh g) as (Hf & E & HE & Hd).
    apply tracks_comp with (E := E) (g := g);
      [exact Hg | exact HE | exact Hf | rewrite Hd; reflexivity ..]. }
  split.
  { intros Hpos. rewrite <- Hval in Hpos.
    apply tracks_comp with (E := / f g) (g := g);
      [exact Hg | apply derivable_pt_lim_ln; exact Hpos | reflexivity
      | simpl; unfold Rdiv; ring ..]. }
  intros Hpos. rewrite <- Hval in Hpos.
  apply (tracks_comp (fun x => Rpower x n) (n * Rpower (f g) (n - 1))
           H u v g);
    [exact Hg | apply (derivable_pt_lim_power (f g) n Hpos)
    | simpl; apply powf_pos; exact Hpos
    | simpl; rewrite (powf_pos (f g) (n - 1) Hpos); ring ..].
Qed.

(** The product and the quotient of the two seeds at [(1, 2)]. *)
Lemma arithmetic_tracks_witness :
  tracks (fun x y => x * y) 1 2
         (mkDnum 1 (Vec2.mk 1 0) * mkDnum 2 (Vec2.mk 0 1))%D /\
  tracks (fun x y => x / y) 1 2
         (mkDnum 1 (Vec2.mk 1 0) / mkDnum 2 (Vec2.mk 0 1))%D.
Proof.
  destruct (arithmetic_tracks (fun a _ => a) (fun _ b => b) 1 2
              (mkDnum 1 (Vec2.mk 1 0)) (mkDnum 2 (Vec2.mk 0 1))
              (tracks_seed_u 1 2) (tracks_seed_v 1 2))
    as (_ & _ & Hmul & Hdiv).
  split; [exact Hmul | apply Hdiv; lra].
Defined.

(** The exponential, the tangent and the logarithm of the first seed at
    [(1, 2)]. *)
Lemma elementary_tracks_witness :
  tracks (fun x _ => exp x) 1 2 (Exp (mkDnum 1 (Vec2.mk 1 0))) /\
  tracks (fun x _ => tan x) 1 2 (Tan (mkDnum 1 (Vec2.mk 1 0))) /\
  tracks (fun x _ => ln x) 1 2 (Log (mkDnum 1 (Vec2.mk 1 0))).
Proof.
  destruct (elementary_tracks (fun a _ => a) 1 2
              (mkDnum 1 (Vec2.mk 1 0)) 2 (tracks_seed_u 1 2))
    as (Hexp & _ & _ & Htan & _ & _ & _ & Hlog & _).
  split; [exact Hexp|]. split.
  - apply Htan. apply Rgt_not_eq, cos_gt_0.
    + pose proof PI_RGT_0; lra.
    + exact PI2_1.
  - apply Hlog. lra.
Defined.

(* ================================================================= *)
(** ** Dual numbers: inverse operations *)

Lemma Dnum2_ext (a c : Dnum2) :
  f a = f c -> Vec2.x (d a) = Vec2.x (d c) -> Vec2.y (d a) = Vec2.y (d c) ->
  a = c.
Proof.
  destruct a as [fa da], c as [fc dc]. simpl. intros -> Hx Hy.
  f_equal. apply Vec2_ext; assumption.
Qed.

(** X4.  In exact arithmetic division undoes multiplication, value and
    derivative alike, where the divisor's value is not zero. *)
Theorem Dnum_mul_div (a c : Dnum2) :
  f c <> 0 -> (a * c / c)%D = a /\ (a / c * c)%D = a.
Proof.
  intros Hc. split; apply Dnum2_ext; simpl; field; exact Hc.
Qed.

Lemma Dnum_mul_div_witness :
  (mkDnum 3 (Vec2.mk 1 0) * mkDnum 2 (Vec2.mk 0 1)
   / mkDnum 2 (Vec2.mk 0 1))%D
  = (mkDnum 3 (Vec2.mk 1 0) : Dnum2).
Proof.
  apply (proj1 (Dnum_mul_div (mkDnum 3 (Vec2.mk 1 0))
                             (mkDnum 2 (Vec2.mk 0 1))
                             ltac:(simpl; lra))).
Defined.

(** X5.  In exact arithmetic [Log] undoes [Exp] for every dual number, and
    [Exp] undoes [Log] for those with a positive value. *)
Theorem Dnum_Exp_Log (a : Dnum2) :
  Log (Exp a) = a /\ (0 < f a -> Exp (Log a) = a).
Proof.
  split.
  - apply Dnum2_ext; simpl; unfold logf, expf.
    + apply ln_exp.
    + field. apply Rgt_not_eq, exp_pos.
    + field. apply Rgt_not_eq, exp_pos.
  - intros Hpos. apply Dnum2_ext; simpl; unfold logf, expf;
      rewrite exp_ln by exact Hpos; [reflexivity | field; lra ..].
Qed.

Lemma Dnum_Exp_Log_witness :
  Exp (Log (mkDnum 2 (Vec2.mk 1 0))) = (mkDnum 2 (Vec2.mk 1 0) : Dnum2).
Proof.
  apply (proj2 (Dnum_Exp_Log (mkDnum 2 (Vec2.mk 1 0)))). simpl. lra.
Defined.

(* ================================================================= *)
(** ** The terrain: gradient, normal, period and bound *)

Lemma tracks_fold_add (u v : R) (T : Z -> Dnum2) (t : Z -> R -> R -> R)
    (js : list Z) :
  (forall j, tracks (t j) u v (T j)) ->
  forall (Y0 : Dnum2) (H0 : R -> R -> R),
    tracks H0 u v Y0 ->
    tracks (fun a b => fold_left (fun acc j => acc + t j a b) js (H0 a b))
           u v (fold_left (fun Y j => (Y + T j)%D) js Y0).
Proof.
  intros HT. induction js as [|j js IH]; intros Y0 H0 H; simpl.
  - exact H.
  - apply (IH (Y0 + T j)%D (fun a b => H0 a b + t j a b)).
    apply tracks_add; [exact H | apply HT].
Qed.

Lemma tracks_fold_add_grid (u v : R) (T : Z -> Z -> Dnum2)
    (t : Z -> Z -> R -> R -> R) (rounds js : list Z) :
  (forall i j, tracks (t i j) u v (T i j)) ->
  forall (Y0 : Dnum2) (H0 : R -> R -> R),
    tracks H0 u v Y0 ->
    tracks
      (fun a b =>
         fold_left
           (fun acc i => fold_left (fun acc j => acc + t i j a b) js acc)
           rounds (H0 a b))
      u v
      (fold_left (fun Y i => fold_left (fun Y j => (Y + T i j)%D) js Y)
                 rounds Y0).
Proof.
  intros HT. induction rounds as [|i rounds IH]; intros Y0 H0 H; simpl.
  - exact H.
  - apply (IH (fold_left (fun Y j => (Y + T i j)%D) js Y0)
              (fun a b => fold_left (fun acc j => acc + t i j a b) js
                                    (H0 a b))).
    apply tracks_fold_add; [intros j; apply HT | exact H].
Qed.

(** A cell whose derivative is zero carries a constant. *)
Lemma tracks_cell (u v : R) (c : Dnum2) :
  d c = Vec2.mk 0 0 -> tracks (fun _ _ => f c) u v c.
Proof.
  intros Hd. destruct c as [cf cd]. simpl in Hd. subst cd.
  apply tracks_const.
Qed.

(** Every cell of the tables that [initA] builds is a plain number. *)
Lemma initA_cells (RAND_MAX : Z) (st : RandState) (i j : Z) :
  let self := fst (initA RAND_MAX Noise_members st) in
  d (Table_get (A self) i j) = Vec2.mk 0 0 /\
  d (Table_get (B self) i j) = Vec2.mk 0 0.
Proof.
  cbv zeta.
  pose proof (initA_tables RAND_MAX st) as E. cbv zeta in E.
  rewrite E. cbn [fst A B]. unfold Table_get.
  destruct (Z.to_nat i) as [|[|[|ni]]];
    destruct (Z.to_nat j) as [|[|[|nj]]];
    simpl;
    repeat match goal with
           | |- context [match ?k with O => _ | S _ => _ end] =>
               destruct k; simpl
           end;
    split; reflexivity.
Qed.

(** One term of the sum in [Noise::eval]. *)
Lemma tracks_Noise_term (u v : R) (X Z Bc Ac : Dnum2) (i j : float) :
  tracks (fun a _ => a - 0.5) u v X ->
  tracks (fun _ b => b - 0.5) u v Z ->
  d Bc = Vec2.mk 0 0 -> d Ac = Vec2.mk 0 0 ->
  tracks
    (fun a b => f Ac * cos (2 * PI * (i * (a - 0.5) + j * (b - 0.5) + f Bc)))
    u v
    (Cos ((X * Dnum_of_float i + Z * Dnum_of_float j + Bc)
          * Dnum_of_float PI * Dnum_of_float 2) * Ac)%D.
Proof.
  intros HX HZ HB HA.
  apply tracks_ext
    with (H1 := fun a b =>
      cos ((((a - 0.5) * i + (b - 0.5) * j + f Bc) * PI) * 2) * f Ac).
  - intros a b. rewrite Rmult_comm. f_equal. f_equal. ring.
  - apply tracks_mul; [|apply tracks_cell; exact HA].
    apply tracks_Cos.
    apply tracks_mul; [|apply tracks_const].
    apply tracks_mul; [|apply tracks_const].
    apply tracks_add; [|apply tracks_cell; exact HB].
    apply tracks_add.
    + apply tracks_mul; [exact HX | apply tracks_const].
    + apply tracks_mul; [exact HZ | apply tracks_const].
Qed.

(** For tables of plain numbers the three results of [Noise::eval] on the
    seeds carry [u - 0.5], the height and [v - 0.5]. *)
Lemma Noise_eval_tracks (self : Noise) (u v : R)
    (XYZ : Dnum2 * Dnum2 * Dnum2) :
  (forall i j, d (Table_get (A self) i j) = Vec2.mk 0 0 /\
               d (Table_get (B self) i j) = Vec2.mk 0 0) ->
  let r := Noise_eval self (mkDnum u (Vec2.mk 1 0)) (mkDnum v (Vec2.mk 0 1))
                      XYZ in
  tracks (fun a _ => a - 0.5) u v (fst (fst r)) /\
  tracks (Noise_height self) u v (snd (fst r)) /\
  tracks (fun _ b => b - 0.5) u v (snd r).
Proof.
  intros Hcells. cbv zeta. unfold Noise_eval. cbn [fst snd].
  assert (HX : tracks (fun a _ => a - 0.5) u v
                 (mkDnum u (Vec2.mk 1 0) - Dnum_of_float 0.5)%D).
  { apply (tracks_sub (fun a _ => a) (fun _ _ => 0.5));
      [apply tracks_seed_u | apply tracks_const]. }
  assert (HZ : tracks (fun _ b => b - 0.5) u v
                 (mkDnum v (Vec2.mk 0 1) - Dnum_of_float 0.5)%D).
  { apply (tracks_sub (fun _ b => b) (fun _ _ => 0.5));
      [apply tracks_seed_v | apply tracks_const]. }
  split; [exact HX|]. split; [|exact HZ].
  unfold Noise_height, grid_sum.
  apply (tracks_fold_add_grid u v
    (fun i j =>
       (Cos ((((mkDnum u (Vec2.mk 1 0) - Dnum_of_float 0.5)
               * Dnum_of_float (IZR i)
               + (mkDnum v (Vec2.mk 0 1) - Dnum_of_float 0.5)
                 * Dnum_of_float (IZR j)
               + Table_get (B self) i j)
              * Dnum_of_float PI) * Dnum_of_float 2)
        * Table_get (A self) i j)%D)
    (fun i j a b =>
       f (Table_get (A self) i j)
       * cos (2 * PI * (IZR i * (a - 0.5) + IZR j * (b - 0.5)
                        + f (Table_get (B self) i j))))
    (upto Noise_n) (upto Noise_n)).
  - intros i j. apply tracks_Noise_term;
      [exact HX | exact HZ | apply Hcells | apply Hcells].
  - apply (tracks_const 0).
Qed.

(** X6.  The terrain built by [initA]: on the seeds [(u, (1, 0))] and [(v,
    (0, 1))], [Noise::eval] returns in [Y] the height at [(u, v)] together
    with its two partial derivatives, in [X] and [Z] the shifted
    parameters with theirs. *)
Theorem Noise_gradient (RAND_MAX : Z) (st : RandState) (u v : R)
    (XYZ : Dnum2 * Dnum2 * Dnum2) :
  (32767 <= RAND_MAX)%Z ->
  let self := fst (initA RAND_MAX Noise_members st) in
  let r := Noise_eval self (mkDnum u (Vec2.mk 1 0)) (mkDnum v (Vec2.mk 0 1))
                      XYZ in
  tracks (fun a _ => a - 0.5) u v (fst (fst r)) /\
  tracks (Noise_height self) u v (snd (fst r)) /\
  tracks (fun _ b => b - 0.5) u v (snd r).
Proof.
  intros _. cbv zeta. apply Noise_eval_tracks.
  intros i j. apply (initA_cells RAND_MAX st i j).
Qed.

Lemma Noise_gradient_witness :
  let self := fst (initA 32767 Noise_members (mkRandState (fun _ => 0%Z) 0)) in
  tracks (Noise_height self) 0 0
    (snd (fst (Noise_eval self (mkDnum 0 (Vec2.mk 1 0))
                 (mkDnum 0 (Vec2.mk 0 1))
                 (Dnum_default, Dnum_default, Dnum_default)))).
Proof.
  cbv zeta.
  apply (Noise_gradient 32767 (mkRandState (fun _ => 0%Z) 0) 0 0
           (Dnum_default, Dnum_default, Dnum_default)).
  lia.
Defined.

(** X7.  The vertex of the terrain at [(u, v)]: its position is [(u - 0.5,
    height, v - 0.5)] and its normal is [(dheight/du, -1, dheight/dv)], so
    the normal is never the zero vector and always has a negative [y]. *)
Theorem Noise_vertex (RAND_MAX : Z) (st : RandState) (u v : R) :
  (32767 <= RAND_MAX)%Z ->
  let self := fst (initA RAND_MAX Noise_members st) in
  let vtx := GenVertexData self u v in
  position vtx = Vec3.mk (u - 0.5) (Noise_height self u v) (v - 0.5) /\
  derivable_pt_lim (fun t => Noise_height self t v) u (Vec3.x (normal vtx)) /\
  Vec3.y (normal vtx) = -1 /\
  derivable_pt_lim (fun t => Noise_height self u t) v (Vec3.z (normal vtx)) /\
  normal vtx <> Vec3.zero.
Proof.
  intros _. cbv zeta.
  set (self := fst (initA RAND_MAX Noise_members st)).
  destruct (Noise_eval_tracks self u v
              (Dnum_default, Dnum_default, Dnum_default)
              (fun i j => initA_cells RAND_MAX st i j))
    as ((HXf & HXu & HXv) & (HYf & HYu & HYv) & (HZf & HZu & HZv)).
  unfold GenVertexData, eval, ParamSurface_Noise.
  destruct (Noise_eval self _ _ _) as [[X Y] Z] eqn:E.
  cbn [fst snd] in *.
  assert (Xd : d X = Vec2.mk 1 0).
  { unfold Noise_eval in E. injection E as EX _ _. subst X.
    apply Vec2_ext; simpl; ring. }
  assert (Zd : d Z = Vec2.mk 0 1).
  { unfold Noise_eval in E. injection E as _ _ EZ. subst Z.
    apply Vec2_ext; simpl; ring. }
  cbn [position normal]. rewrite Xd, Zd. cbn [Vec2.x Vec2.y].
  assert (Ny : Vec3.y (Vec3.cross
                 (Vec3.mk 1 (Vec2.x (d Y)) 0) (Vec3.mk 0 (Vec2.y (d Y)) 1))
               = -1) by (simpl; ring).
  split; [rewrite HXf, HYf, HZf; reflexivity|].
  split.
  { apply derivable_pt_lim_eq with (2 := HYu). simpl. ring. }
  split; [exact Ny|].
  split.
  { apply derivable_pt_lim_eq with (2 := HYv). simpl. ring. }
  intros Hz. rewrite Hz in Ny. simpl in Ny. lra.
Qed.

Lemma Noise_vertex_witness :
  let self := fst (initA 32767 Noise_members (mkRandState (fun _ => 0%Z) 0)) in
  Vec3.y (normal (GenVertexData self 0 0)) = -1.
Proof.
  cbv zeta.
  destruct (Noise_vertex 32767 (mkRandState (fun _ => 0%Z) 0) 0 0)
    as (_ & _ & Hy & _); [lia | exact Hy].
Defined.

Lemma fold_add_ext (t1 t2 : Z -> R) (js : list Z) :
  (forall j, In j js -> t1 j = t2 j) ->
  forall a : R,
    fold_left (fun acc j => acc + t1 j) js a
    = fold_left (fun acc j => acc + t2 j) js a.
Proof.
  induction js as [|j js IH]; intros E a; simpl; [reflexivity|].
  rewrite (E j) by (left; reflexivity).
  apply IH. intros j' Hj'. apply E. right. exact Hj'.
Qed.

Lemma fold_add_grid_ext (t1 t2 : Z -> Z -> R) (rounds js : list Z) :
  (forall i j, In i rounds -> In j js -> t1 i j = t2 i j) ->
  forall a : R,
    fold_left (fun acc i => fold_left (fun acc j => acc + t1 i j) js acc)
              rounds a
    = fold_left (fun acc i => fold_left (fun acc j => acc + t2 i j) js acc)
                rounds a.
Proof.
  induction rounds as [|i rounds IH]; intros E a; simpl; [reflexivity|].
  rewrite (fold_add_ext (t1 i) (t2 i) js)
    by (intros j Hj; apply E; [left; reflexivity | exact Hj]).
  apply IH. intros i' j' Hi'. apply E. right. exact Hi'.
Qed.

Lemma grid_sum_ext (t1 t2 : Z -> Z -> R) :
  (forall i j, In i (upto Noise_n) -> In j (upto Noise_n) ->
               t1 i j = t2 i j) ->
  grid_sum t1 = grid_sum t2.
Proof. intros E. unfold grid_sum. apply fold_add_grid_ext. exact E. Qed.

Lemma in_upto (hi k : Z) : In k (upto hi) -> exists n : nat, k = Z.of_nat n.
Proof.
  unfold upto. rewrite in_map_iff. intros (n & <- & _). exists n. reflexivity.
Qed.

Lemma cos_whole_turns (x : R) (k : Z) :
  (exists n : nat, k = Z.of_nat n) -> cos (x + 2 * PI * IZR k) = cos x.
Proof.
  intros (n & ->). rewrite <- INR_IZR_INZ.
  replace (x + 2 * PI * INR n) with (x + 2 * INR n * PI) by ring.
  apply cos_period.
Qed.

(** The value that [GenVertexData] puts into the position's [y] for the
    terrain is the height, whatever the tables hold. *)
Lemma Noise_position_y (self : Noise) (u v : R) :
  Vec3.y (position (GenVertexData self u v)) = Noise_height self u v.
Proof.
  unfold GenVertexData, eval, ParamSurface_Noise.
  destruct (Noise_eval_values self (mkDnum u (Vec2.mk 1 0))
              (mkDnum v (Vec2.mk 0 1))
              (Dnum_default, Dnum_default, Dnum_default)) as (_ & _ & HY).
  destruct (Noise_eval self _ _ _) as [[X Y] Z].
  cbn [fst snd] in HY. cbn [position Vec3.y]. exact HY.
Qed.

(** X8.  The terrain repeats with period one in both parameters, whatever
    the phases are: the heights along the edges [u = 0] and [u = 1] of the
    unit square agree, and so do those along [v = 0] and [v = 1]. *)
Theorem Noise_periodic (self : Noise) (u v : R) :
  Vec3.y (position (GenVertexData self (u + 1) v))
  = Vec3.y (position (GenVertexData self u v)) /\
  Vec3.y (position (GenVertexData self u (v + 1)))
  = Vec3.y (position (GenVertexData self u v)).
Proof.
  rewrite !Noise_position_y. unfold Noise_height.
  split; apply grid_sum_ext; intros i j Hi Hj; f_equal.
  - match goal with
    | |- cos _ = cos ?x =>
        rewrite <- (cos_whole_turns x i (in_upto _ _ Hi))
    end.
    f_equal. ring.
  - match goal with
    | |- cos _ = cos ?x =>
        rewrite <- (cos_whole_turns x j (in_upto _ _ Hj))
    end.
    f_equal. ring.
Qed.

Lemma amplitude_term_bound (a m c : R) :
  0 <= a <= m -> -1 <= c <= 1 -> - m <= a * c <= m.
Proof. intros Ha Hc. split; nra. Qed.

Lemma inv_sqrt_bound (x m : R) :
  0 < m -> m * m <= x -> 0 <= 1 / sqrt x <= 1 / m.
Proof.
  intros Hm Hx.
  assert (Hs : m <= sqrt x).
  { rewrite <- (sqrt_square m) by lra. apply sqrt_le_1_alt. exact Hx. }
  assert (Hp : 0 < sqrt x) by lra.
  unfold Rdiv. rewrite !Rmult_1_l. split.
  - left. apply Rinv_0_lt_compat. exact Hp.
  - apply Rinv_le_contravar; assumption.
Qed.

(** X9.  Whatever [rand()] returns, the terrain built by [initA] stays
    within five units of zero: a height is a sum of eight cosines with the
    amplitudes [1], [1], [1/2], [1/2], [1/sqrt 2], [1/sqrt 5], [1/sqrt 5]
    and [1/sqrt 8]. *)
Theorem Noise_height_bound (RAND_MAX : Z) (st : RandState) (u v : R) :
  (32767 <= RAND_MAX)%Z ->
  let self := fst (initA RAND_MAX Noise_members st) in
  -5 < Vec3.y (position (GenVertexData self u v)) < 5.
Proof.
  intros _. cbv zeta. rewrite Noise_position_y.
  pose proof (initA_tables RAND_MAX st) as E. cbv zeta in E.
  rewrite E. cbn [fst].
  unfold Noise_height, grid_sum, upto, Noise_n, Table_get. simpl.
  repeat match goal with
         | |- context [cos ?x] =>
             generalize (COS_bound x); generalize (cos x); intros
         end.
  assert (S4 : sqrt 4 = 2).
  { replace 4 with (2 * 2) by ring. apply sqrt_square. lra. }
  rewrite sqrt_1, S4.
  pose proof (inv_sqrt_bound 2 1.41 ltac:(lra) ltac:(lra)) as B2.
  pose proof (inv_sqrt_bound 5 2.23 ltac:(lra) ltac:(lra)) as B5.
  pose proof (inv_sqrt_bound 8 2.82 ltac:(lra) ltac:(lra)) as B8.
  repeat match goal with
         | Hc : -1 <= ?c <= 1 |- context [?a * ?c] =>
             pose proof (amplitude_term_bound a _ c
                           ltac:(first [exact B2 | exact B5 | exact B8
                                       | split; [lra | apply Rle_refl]])
                           Hc);
             generalize dependent (a * c); intros; clear Hc
         end.
  lra.
Qed.

Lemma Noise_height_bound_witness :
  let self := fst (initA 32767 Noise_members (mkRandState (fun _ => 0%Z) 0)) in
  -5 < Vec3.y (position (GenVertexData self 0 0)) < 5.
Proof.
  cbv zeta.
  apply (Noise_height_bound 32767 (mkRandState (fun _ => 0%Z) 0) 0 0).
  lia.
Defined.

(* ================================================================= *)
(** ** Tessellation: strips, texture coordinates, degenerate grids *)

Lemma in_upto_range (hi k : Z) : In k (upto hi) -> (0 <= k < hi)%Z.
Proof.
  unfold upto. rewrite in_map_iff. intros (n & <- & Hn).
  apply in_seq in Hn. lia.
Qed.

Lemma upto_nonpos (hi : Z) : (hi <= 0)%Z -> upto hi = [].
Proof.
  intros Hhi. unfold upto.
  replace (Z.to_nat hi) with 0%nat by lia. reflexivity.
Qed.

Lemma GenVertexData_texcoord {S : Type} `{ParamSurface S}
    (self : S) (u v : float) :
  texcoord (GenVertexData self u v) = Vec2.mk u v.
Proof.
  unfold GenVertexData. destruct (eval self _ _ _) as [[X Y] Z].
  reflexivity.
Qed.

Lemma unit_fraction (k n : Z) :
  (0 <= k <= n)%Z -> (0 < n)%Z -> 0 <= IZR k / IZR n <= 1.
Proof.
  intros [H0 H1] Hn.
  assert (Hpos : 0 < IZR n) by (apply IZR_lt; lia).
  apply IZR_le in H0. apply IZR_le in H1.
  split.
  - apply Rmult_le_pos; [exact H0 | left; apply Rinv_0_lt_compat; exact Hpos].
  - apply Rmult_le_reg_r with (r := IZR n); [exact Hpos|].
    unfold Rdiv. rewrite Rmult_assoc, Rinv_l by lra. lra.
Qed.

Section CreateMore.
Context {S : Type} `{ParamSurface S}.

(** X10.  For a grid whose vertices can be counted in an [int], the
    calls that [Draw] issues read, one after the other, exactly the
    uploaded vertices: each call starts where the one before ended, reads
    [2 * (M + 1)] vertices, and none reaches past the end of the
    buffer. *)
Theorem strips_partition (self : S) (N M : Z) :
  (0 <= N)%Z -> (0 <= M)%Z -> ((M + 1) * 2 <= INT_MAX)%Z ->
  (N * (2 * (M + 1)) <= INT_MAX)%Z ->
  let t := create self N M in
  Draw t = map (fun i => (i * (2 * (M + 1)), 2 * (M + 1))%Z) (upto N) /\
  concat (map (drawn (vtxData t)) (Draw t)) = vtxData t /\
  (forall call : Z * Z, In call (Draw t) ->
     (0 <= fst call)%Z /\
     (fst call + snd call <= Z.of_nat (length (vtxData t)))%Z).
Proof.
  intros HN HM HW Htot. cbv zeta.
  assert (HN' : (0 <= N <= INT_MAX)%Z) by (unfold INT_MAX in *; nia).
  destruct (create_counters self N M HN' HM HW) as [HnS HnV].
  assert (Hcalls : Draw (create self N M)
            = map (fun i => (i * (2 * (M + 1)), 2 * (M + 1))%Z) (upto N)).
  { unfold Draw. rewrite HnS, HnV. apply map_ext_in. intros i Hi.
    apply in_upto_range in Hi. unfold INT_MAX in *.
    rewrite to_unsigned_small by nia.
    rewrite !int_wrap_small by nia. reflexivity. }
  assert (Hlen : Z.of_nat (length (vtxData (create self N M)))
                 = (N * (2 * (M + 1)))%Z).
  { rewrite create_vtxData.
    rewrite flat_map_constant_length with (c := (2 * Z.to_nat (M + 1))%nat).
    - rewrite length_upto. lia.
    - intros i _.
      rewrite flat_map_constant_length with (c := 2%nat)
        by (intros; reflexivity).
      rewrite length_upto. lia. }
  split; [exact Hcalls|]. split.
  - transitivity (concat (map (strip (create self N M)) (upto N))).
    + f_equal. rewrite Hcalls, map_map.
      apply map_ext_in. intros i Hi.
      pose proof (in_upto_range _ _ Hi) as Hr.
      unfold drawn. cbn [fst snd].
      destruct (Z.ltb_spec (i * (2 * (M + 1))) 0) as [Hneg | _]; [nia|].
      destruct (Z.ltb_spec (2 * (M + 1)) 0) as [Hneg | _]; [lia|].
      cbn [orb]. unfold strip. rewrite HnV. reflexivity.
    + rewrite create_vtxData, flat_map_concat_map. f_equal.
      apply map_ext_in. intros i Hi.
      apply create_strip; try assumption.
      apply in_upto_range. exact Hi.
  - intros call Hin. rewrite Hcalls in Hin.
    apply in_map_iff in Hin. destruct Hin as (i & <- & Hi).
    apply in_upto_range in Hi. cbn [fst snd]. rewrite Hlen. nia.
Qed.

(** X11.  On a grid with at least one row and one column every texture
    coordinate lies in the unit square. *)
Theorem texcoords_in_unit_square (self : S) (N M : Z) (vtx : VertexData) :
  (0 < N)%Z -> (0 < M)%Z ->
  In vtx (vtxData (create self N M)) ->
  0 <= Vec2.x (texcoord vtx) <= 1 /\ 0 <= Vec2.y (texcoord vtx) <= 1.
Proof.
  intros HN HM Hin. rewrite create_vtxData in Hin.
  apply in_flat_map in Hin. destruct Hin as (i & Hi & Hin).
  apply in_flat_map in Hin. destruct Hin as (j & Hj & Hin).
  apply in_upto_range in Hi. apply in_upto_range in Hj.
  destruct Hin as [<- | [<- | []]];
    rewrite GenVertexData_texcoord; cbn [Vec2.x Vec2.y];
    split; apply unit_fraction; lia.
Qed.

(** X12.  A grid without rows or with a negative number of columns yields
    no vertex at all; for a negative [N] the strip counter nevertheless
    becomes [2^32 + N]. *)
Theorem create_degenerate (self : S) (N M : Z) :
  (- 2 ^ 31 <= N <= INT_MAX)%Z ->
  (N <= 0 \/ M < 0)%Z ->
  vtxData (create self N M) = [] /\
  (N < 0 -> nStrips (create self N M) = (2 ^ 32 + N))%Z.
Proof.
  intros HN Hdeg. split.
  - rewrite create_vtxData. destruct Hdeg as [HN0 | HM0].
    + rewrite (upto_nonpos N HN0). reflexivity.
    + rewrite (upto_nonpos (M + 1)) by lia.
      induction (upto N) as [|i rounds IH]; [reflexivity | exact IH].
  - intros Hneg. unfold create, to_unsigned. cbn [nStrips].
    unfold INT_MAX in HN.
    symmetry. apply (Z.mod_unique N (2 ^ 32) (-1)); lia.
Qed.

End CreateMore.

Lemma strips_partition_witness :
  Draw (create Noise_members 2 3) = [(0, 8); (8, 8)]%Z /\
  concat (map (drawn (vtxData (create Noise_members 2 3)))
              (Draw (create Noise_members 2 3)))
  = vtxData (create Noise_members 2 3).
Proof.
  destruct (strips_partition Noise_members 2 3) as (Hcalls & Hcat & _);
    [lia | lia | unfold INT_MAX; lia | unfold INT_MAX; lia |].
  split; [rewrite Hcalls; reflexivity | exact Hcat].
Defined.

Lemma texcoords_in_unit_square_witness :
  let vtx := GenVertexData Noise_members (IZR 0 / IZR 3) (IZR 0 / IZR 2) in
  0 <= Vec2.x (texcoord vtx) <= 1 /\ 0 <= Vec2.y (texcoord vtx) <= 1.
Proof.
  cbv zeta.
  apply (texcoords_in_unit_square Noise_members 2 3); [lia | lia |].
  rewrite create_vtxData. simpl. left. reflexivity.
Defined.

Lemma create_degenerate_witness :
  vtxData (create Noise_members (-1) 3) = [] /\
  nStrips (create Noise_members (-1) 3) = 4294967295%Z.
Proof.
  destruct (create_degenerate Noise_members (-1) 3) as [E Hn];
    [unfold INT_MAX; lia | left; lia |].
  split; [exact E | apply Hn; lia].
Defined.

(* ================================================================= *)
(** ** The checkerboard image *)

Lemma list_set_length {X : Type} (k : nat) (x : X) (l : list X) :
  length (list_set k x l) = length l.
Proof.
  revert k. induction l as [|y l IH]; intros [|k]; simpl;
    try reflexivity.
  rewrite IH. reflexivity.
Qed.

Lemma nth_error_list_set_eq {X : Type} (k : nat) (x : X) (l : list X) :
  (k < length l)%nat -> nth_error (list_set k x l) k = Some x.
Proof.
  revert k. induction l as [|y l IH]; intros [|k] Hk; simpl in *;
    try lia; try reflexivity.
  apply IH. lia.
Qed.

Lemma nth_error_list_set_neq {X : Type} (k k' : nat) (x : X) (l : list X) :
  k <> k' -> nth_error (list_set k x l) k' = nth_error l k'.
Proof.
  revert k k'. induction l as [|y l IH]; intros [|k] [|k'] Hne; simpl;
    try reflexivity; try congruence.
  apply IH. congruence.
Qed.

Section Writes.
Context {X : Type}.

Lemma apply_writes_length (ws : list (nat * X)) (l : list X) :
  length (apply_writes ws l) = length l.
Proof.
  unfold apply_writes. revert l.
  induction ws as [|w ws IH]; intros l; simpl; [reflexivity|].
  rewrite IH. apply list_set_length.
Qed.

Lemma apply_writes_keep (ws : list (nat * X)) (l : list X) (k : nat)
    (c : X) :
  (forall w, In w ws -> fst w = k -> snd w = c) ->
  nth_error l k = Some c ->
  nth_error (apply_writes ws l) k = Some c.
Proof.
  unfold apply_writes. revert l.
  induction ws as [|w ws IH]; intros l Hsame Hl; simpl; [exact Hl|].
  apply IH.
  - intros w' Hw'. apply Hsame. right. exact Hw'.
  - destruct (Nat.eq_dec (fst w) k) as [E | E].
    + rewrite (Hsame w (or_introl eq_refl) E), E.
      apply nth_error_list_set_eq.
      apply nth_error_Some. rewrite Hl. discriminate.
    + rewrite nth_error_list_set_neq by exact E. exact Hl.
Qed.

Lemma apply_writes_hit (ws : list (nat * X)) (l : list X) (k : nat)
    (c : X) :
  (forall w, In w ws -> fst w = k -> snd w = c) ->
  (exists w, In w ws /\ fst w = k) ->
  (k < length l)%nat ->
  nth_error (apply_writes ws l) k = Some c.
Proof.
  revert l.
  induction ws as [|w ws IH]; intros l Hsame (w0 & Hin & Hk) Hlen.
  - destruct Hin.
  - destruct Hin as [-> | Hin].
    + change (apply_writes (w0 :: ws) l)
        with (apply_writes ws (list_set (fst w0) (snd w0) l)).
      apply apply_writes_keep.
      * intros w' Hw'. apply Hsame. right. exact Hw'.
      * rewrite (Hsame w0 (or_introl eq_refl) Hk), Hk.
        apply nth_error_list_set_eq. exact Hlen.
    + change (apply_writes (w :: ws) l)
        with (apply_writes ws (list_set (fst w) (snd w) l)).
      apply IH.
      * intros w' Hw'. apply Hsame. right. exact Hw'.
      * exists w0. split; assumption.
      * rewrite list_set_length. exact Hlen.
Qed.

(** Two nested loops that write one cell per round. *)
Lemma nested_writes {I J : Type} (idx : I -> J -> nat) (val : I -> J -> X)
    (rounds : list I) (js : list J) (l : list X) :
  fold_left
    (fun l i => fold_left (fun l j => list_set (idx i j) (val i j) l) js l)
    rounds l
  = apply_writes
      (flat_map (fun i => map (fun j => (idx i j, val i j)) js) rounds) l.
Proof.
  unfold apply_writes. revert l.
  induction rounds as [|i rounds IH]; intros l; simpl; [reflexivity|].
  rewrite fold_left_app, <- IH. f_equal.
  clear IH. revert l.
  induction js as [|j js IHj]; intros l; simpl; [reflexivity|].
  apply IHj.
Qed.

End Writes.

Lemma checker_parity (x y : Z) :
  (Z.lxor (Z.land x 1) (Z.land y 1) =? 0)%Z = Z.even (x + y).
Proof.
  assert (Hb : forall a : Z, Z.land a 1 = Z.b2z (Z.odd a)).
  { intros a. change 1%Z with (Z.ones 1).
    rewrite Z.land_ones by lia. change (2 ^ 1)%Z with 2%Z.
    rewrite <- Z.bit0_mod, Z.bit0_odd. reflexivity. }
  rewrite !Hb, Z.even_add, <- !Z.negb_odd.
  destruct (Z.odd x), (Z.odd y); reflexivity.
Qed.

Lemma CheckerBoardTexture_image (width height : Z) :
  (0 <= width)%Z -> (0 <= height)%Z -> (width * height <= INT_MAX)%Z ->
  exists image : list vec4,
    CheckerBoardTexture width height = Some image /\
    length image = Z.to_nat (width * height) /\
    forall x y : Z, (0 <= x < width)%Z -> (0 <= y < height)%Z ->
      nth_error image (Z.to_nat (y * width + x))
      = Some (if Z.even (x + y) then blue else yellow).
Proof.
  unfold INT_MAX. intros Hw Hh Hsize.
  unfold CheckerBoardTexture.
  rewrite int_wrap_small by nia.
  destruct (Z.ltb_spec (width * height) 0) as [Hneg | _]; [nia|].
  eexists. split; [reflexivity|].
  rewrite (nested_writes
             (fun x y => Z.to_nat (int_wrap (int_wrap (y * width) + x)))
             (fun x y => if (Z.lxor (Z.land x 1) (Z.land y 1) =? 0)%Z
                         then blue else yellow)).
  split.
  - rewrite apply_writes_length, repeat_length. reflexivity.
  - intros x y Hx Hy.
    assert (Hidx : forall x' y' : Z,
              (0 <= x' < width)%Z -> (0 <= y' < height)%Z ->
              Z.to_nat (int_wrap (int_wrap (y' * width) + x'))
              = Z.to_nat (y' * width + x')).
    { intros x' y' Hx' Hy'.
      rewrite (int_wrap_small (y' * width)) by nia.
      rewrite int_wrap_small by nia. reflexivity. }
    apply apply_writes_hit.
    + intros w Hin Hk.
      apply in_flat_map in Hin. destruct Hin as (x' & Hx' & Hin).
      apply in_map_iff in Hin. destruct Hin as (y' & <- & Hy').
      apply in_upto_range in Hx'. apply in_upto_range in Hy'.
      cbn [fst snd] in *. rewrite Hidx in Hk by assumption.
      assert (Hyw' : (0 <= y' * width)%Z) by nia.
      assert (Hyw : (0 <= y * width)%Z) by nia.
      assert (E : (y' * width + x' = y * width + x)%Z) by lia.
      assert (Ey : y' = y).
      { destruct (Z.lt_trichotomy y' y) as [Hlt | [Heq | Hgt]];
          [exfalso | exact Heq | exfalso].
        - assert ((y' + 1) * width <= y * width)%Z
            by (apply Z.mul_le_mono_nonneg_r; lia).
          lia.
        - assert ((y + 1) * width <= y' * width)%Z
            by (apply Z.mul_le_mono_nonneg_r; lia).
          lia. }
      subst y'. assert (Ex : x' = x) by lia. subst x'.
      rewrite checker_parity. reflexivity.
    + exists (Z.to_nat (y * width + x),
              if Z.even (x + y) then blue else yellow).
      split; [|reflexivity].
      apply in_flat_map. exists x. split.
      * unfold upto. apply in_map_iff. exists (Z.to_nat x).
        split; [lia | apply in_seq; lia].
      * apply in_map_iff. exists y. split.
        -- rewrite Hidx by assumption. rewrite checker_parity. reflexivity.
        -- unfold upto. apply in_map_iff. exists (Z.to_nat y).
           split; [lia | apply in_seq; lia].
    + rewrite repeat_length. nia.
Qed.

Lemma yellow_neq_blue : yellow <> blue.
Proof. unfold yellow, blue. intros E. injection E as E1 _ _. lra. Qed.

(** X13.  For sizes that are not negative the image has [width * height]
    pixels, the pixel in column [x] of row [y] is blue when [x + y] is
    even and yellow when it is odd, and so two pixels next to each other
    in a row or in a column never have the same colour. *)
Theorem checkerboard_pixels (width height : Z) :
  (0 <= width)%Z -> (0 <= height)%Z -> (width * height <= INT_MAX)%Z ->
  exists image : list vec4,
    CheckerBoardTexture width height = Some image /\
    length image = Z.to_nat (width * height) /\
    (forall x y : Z, (0 <= x < width)%Z -> (0 <= y < height)%Z ->
       nth_error image (Z.to_nat (y * width + x))
       = Some (if Z.even (x + y) then blue else yellow)) /\
    (forall x y : Z, (0 <= x)%Z -> (x + 1 < width)%Z ->
       (0 <= y < height)%Z ->
       nth_error image (Z.to_nat (y * width + x))
       <> nth_error image (Z.to_nat (y * width + (x + 1)))) /\
    (forall x y : Z, (0 <= x < width)%Z -> (0 <= y)%Z ->
       (y + 1 < height)%Z ->
       nth_error image (Z.to_nat (y * width + x))
       <> nth_error image (Z.to_nat ((y + 1) * width + x))).
Proof.
  intros Hw Hh Hsize.
  destruct (CheckerBoardTexture_image width height Hw Hh Hsize)
    as (image & E & Hlen & Hpix).
  exists image. split; [exact E|]. split; [exact Hlen|].
  split; [exact Hpix|].
  assert (Hflip : forall k : Z,
            (if Z.even k then blue else yellow)
            <> (if Z.even (k + 1) then blue else yellow)).
  { intros k. rewrite Z.even_add. change (Z.even 1) with false.
    destruct (Z.even k); simpl; intros E'.
    - apply yellow_neq_blue. symmetry. exact E'.
    - apply yellow_neq_blue. exact E'. }
  split.
  - intros x y Hx0 Hx1 Hy.
    rewrite !Hpix by lia.
    replace (x + 1 + y)%Z with (x + y + 1)%Z by ring.
    intros E'. injection E' as E'. exact (Hflip _ E').
  - intros x y Hx Hy0 Hy1.
    rewrite !Hpix by lia.
    replace (x + (y + 1))%Z with (x + y + 1)%Z by ring.
    intros E'. injection E' as E'. exact (Hflip _ E').
Qed.

(** The texture of the scene, [CheckerBoardTexture(4, 8)]. *)
Lemma checkerboard_pixels_witness :
  exists image : list vec4,
    CheckerBoardTexture 4 8 = Some image /\
    length image = 32%nat /\
    nth_error image 5 = Some blue /\
    nth_error image 6 = Some yellow.
Proof.
  destruct (checkerboard_pixels 4 8) as (image & E & Hlen & Hpix & _);
    [lia | lia | unfold INT_MAX; lia |].
  exists image. split; [exact E|]. split; [exact Hlen|]. split.
  - exact (Hpix 1%Z 1%Z ltac:(lia) ltac:(lia)).
  - exact (Hpix 2%Z 1%Z ltac:(lia) ltac:(lia)).
Defined.

(** X14.  When the product [width * height] is negative no image is
    built: the vector cannot be allocated. When both sizes are negative
    the loops do not run and the image is [width * height] default
    pixels. *)
Theorem checkerboard_negative (width height : Z) :
  (- INT_MAX <= width * height <= INT_MAX)%Z ->
  (width * height < 0 -> CheckerBoardTexture width height = None)%Z /\
  (width < 0 -> height < 0 ->
   CheckerBoardTexture width height
   = Some (repeat (Vec4.mk 0 0 0 0) (Z.to_nat (width * height))))%Z.
Proof.
  unfold INT_MAX. intros Hsize.
  unfold CheckerBoardTexture. rewrite int_wrap_small by lia.
  split.
  - intros Hneg.
    destruct (Z.ltb_spec (width * height) 0) as [_ | Hge]; [reflexivity|lia].
  - intros Hw Hh.
    destruct (Z.ltb_spec (width * height) 0) as [Hneg | _]; [nia|].
    rewrite (upto_nonpos width) by lia. reflexivity.
Qed.

Lemma checkerboard_negative_witness :
  CheckerBoardTexture (-4) 8 = None /\
  CheckerBoardTexture (-1) (-2)
  = Some [Vec4.mk 0 0 0 0; Vec4.mk 0 0 0 0].
Proof.
  destruct (checkerboard_negative (-4) 8) as [H1 _];
    [unfold INT_MAX; lia|].
  destruct (checkerboard_negative (-1) (-2)) as [_ H2];
    [unfold INT_MAX; lia|].
  split; [apply H1; lia | apply H2; lia].
Defined.

(* ================================================================= *)
(** ** The tethered body: special motions *)

Lemma Vec3_length_scale (c : float) (a : vec3) :
  0 <= c -> Vec3.length (Vec3.mulr a c) = c * Vec3.length a.
Proof.
  intros Hc. unfold Vec3.length, Vec3.dot. simpl.
  replace (Vec3.x a * c * (Vec3.x a * c) + Vec3.y a * c * (Vec3.y a * c)
           + Vec3.z a * c * (Vec3.z a * c))
    with ((c * c)
          * (Vec3.x a * Vec3.x a + Vec3.y a * Vec3.y a
             + Vec3.z a * Vec3.z a)) by ring.
  rewrite sqrt_mult_alt by nra.
  rewrite sqrt_square by exact Hc. reflexivity.
Qed.

Section BodyMotions.
Context {fw : Framework}.

Lemma K_stretched (self : Body) (tstart tend : float) :
  let a := Animate_vars self tstart tend in
  let sl := Vec3.sub (s self) (l a) in
  Vec3.length sl > l0 self ->
  K a = Vec3.mulr sl (D self * (Vec3.length sl - l0 self)).
Proof.
  cbv zeta. unfold Animate_vars. simpl.
  set (l_ := Vec3.mk _ _ _).
  destruct (Rgt_dec (Vec3.length (Vec3.sub (s self) l_)) (l0 self))
    as [Hgt|Hle]; intros Hc; [|contradiction].
  apply Vec3_ext; simpl; ring.
Qed.

(** X15.  A stretched spring with a stiffness that is not negative pulls
    the tether point towards the anchor, and the size of the force is [D *
    |s - l| * (|s - l| - l0)]: it grows with the square of the distance,
    not linearly. *)
Theorem spring_pulls_to_anchor (self : Body) (tstart tend : float) :
  let a := Animate_vars self tstart tend in
  let sl := Vec3.sub (s self) (l a) in
  Vec3.length sl > l0 self -> 0 <= D self ->
  K a = Vec3.mulr sl (D self * (Vec3.length sl - l0 self)) /\
  0 <= Vec3.dot (K a) sl /\
  Vec3.length (K a)
  = D self * Vec3.length sl * (Vec3.length sl - l0 self).
Proof.
  cbv zeta. intros Hlen HD.
  pose proof (K_stretched self tstart tend Hlen) as HK. cbv zeta in HK.
  set (sl := Vec3.sub (s self) (l (Animate_vars self tstart tend))) in *.
  clearbody sl.
  assert (Hc : 0 <= D self * (Vec3.length sl - l0 self)).
  { apply Rmult_le_pos; lra. }
  split; [exact HK|]. rewrite HK. split.
  - set (c := D self * (Vec3.length sl - l0 self)) in *. clearbody c.
    destruct sl as [x y z]. unfold Vec3.dot. simpl.
    replace (x * c * x + y * c * y + z * c * z)
      with (c * (x * x + y * y + z * z)) by ring.
    apply Rmult_le_pos; [exact Hc | nra].
  - rewrite Vec3_length_scale by exact Hc. ring.
Qed.

Lemma Inertia_nonzero (self : Body) (tstart tend : float) :
  m self <> 0 ->
  Vec3.x (scale (object self)) <> 0 \/ Vec3.y (scale (object self)) <> 0 ->
  Inertia (Animate_vars self tstart tend) <> 0.
Proof.
  intros Hm Hs.
  change (Inertia (Animate_vars self tstart tend))
    with (m self * (Vec3.x (scale (object self))
                    * Vec3.x (scale (object self))
                    + Vec3.y (scale (object self))
                      * Vec3.y (scale (object self))) / 12).
  set (sx := Vec3.x (scale (object self))) in *.
  set (sy := Vec3.y (scale (object self))) in *.
  assert (Hq : 0 < sx * sx + sy * sy) by (destruct Hs; nra).
  intros E.
  assert (E' : m self * (sx * sx + sy * sy) = 0) by lra.
  apply Rmult_integral in E'. destruct E'; [contradiction | lra].
Qed.

Lemma Animate_v (self : Body) (tstart tend : float) :
  v (Animate true self tstart tend)
  = Vec3.div
      (Vec3.add (Vec3.mull (m self) (v self))
         (Vec3.mulr
            (Vec3.sub
               (Vec3.add (Vec3.mull (m self) (g self))
                         (K (Animate_vars self tstart tend)))
               (Vec3.mull (ro self) (v self)))
            (tend - tstart)))
      (m self).
Proof. reflexivity. Qed.

Lemma Animate_w (self : Body) (tstart tend : float) :
  w (Animate true self tstart tend)
  = Vec3.mull (1 / Inertia (Animate_vars self tstart tend))
      (Vec3.add
         (Vec3.mull (Inertia (Animate_vars self tstart tend)) (w self))
         (Vec3.mulr
            (Vec3.sub
               (Vec3.cross
                  (Vec3.sub (l (Animate_vars self tstart tend))
                            (translation' (Animate_vars self tstart tend)))
                  (K (Animate_vars self tstart tend)))
               (Vec3.mull (kappa self) (w self)))
            (tend - tstart))).
Proof. reflexivity. Qed.

(** X16.  Without spring and without drag the step adds [g * dt] to the
    velocity whatever the mass is, as long as it is not zero, and moves
    the body by the old velocity times [dt]. *)
Theorem ballistic_step (self : Body) (tstart tend : float) :
  m self <> 0 -> D self = 0 -> ro self = 0 ->
  let self' := Animate true self tstart tend in
  v self' = Vec3.add (v self) (Vec3.mulr (g self) (tend - tstart)) /\
  translation (object self')
  = Vec3.add (translation (object self))
             (Vec3.mulr (v self) (tend - tstart)).
Proof.
  intros Hm HD Hro. cbv zeta. split; [|reflexivity].
  rewrite Animate_v, (K_zero_stiffness self tstart tend HD), Hro.
  apply Vec3_ext; simpl; field; exact Hm.
Qed.

(** X17.  Without spring and without angular drag the step keeps the
    angular velocity, for a body with a mass and a width or height that
    are not zero, and turns the body by [dot(rotationAxis, w) * dt]. *)
Theorem free_spin_step (self : Body) (tstart tend : float) :
  m self <> 0 ->
  Vec3.x (scale (object self)) <> 0 \/ Vec3.y (scale (object self)) <> 0 ->
  D self = 0 -> kappa self = 0 ->
  let self' := Animate true self tstart tend in
  w self' = w self /\
  rotationAngle (object self')
  = rotationAngle (object self)
    - Vec3.dot (rotationAxis (object self)) (w self) * (tend - tstart).
Proof.
  intros Hm Hs HD Hk. cbv zeta.
  pose proof (Inertia_nonzero self tstart tend Hm Hs) as HI.
  assert (Hw : w (Animate true self tstart tend) = w self).
  { rewrite Animate_w, (K_zero_stiffness self tstart tend HD), Hk.
    set (In_ := Inertia (Animate_vars self tstart tend)) in *.
    apply Vec3_ext; simpl; field; exact HI. }
  split; [exact Hw|].
  change (rotationAngle (object (Animate true self tstart tend)))
    with (rotationAngle (object self)
          - Vec3.dot (rotationAxis (object self))
                     (w (Animate true self tstart tend))
            * (tend - tstart)).
  rewrite Hw. reflexivity.
Qed.

(** X18.  A step over no time at all leaves the pose and both velocities
    as they are, for a body with a mass and a width or height that are not
    zero; only the two stored matrices are computed anew. *)
Theorem zero_length_step (self : Body) (t : float) :
  m self <> 0 ->
  Vec3.x (scale (object self)) <> 0 \/ Vec3.y (scale (object self)) <> 0 ->
  let self' := Animate true self t t in
  object self' = object self /\ v self' = v self /\ w self' = w self /\
  (M self', Minv self') = SetModelingTransform (object self).
Proof.
  intros Hm Hs. cbv zeta.
  pose proof (Inertia_nonzero self t t Hm Hs) as HI.
  assert (Hv : v (Animate true self t t) = v self).
  { rewrite Animate_v. apply Vec3_ext; simpl; field; exact Hm. }
  assert (Hw : w (Animate true self t t) = w self).
  { rewrite Animate_w.
    set (In_ := Inertia (Animate_vars self t t)) in *.
    apply Vec3_ext; simpl; field; exact HI. }
  split; [|split; [exact Hv | split; [exact Hw | reflexivity]]].
  change (object (Animate true self t t))
    with (mkObject (shader (object self)) (material (object self))
            (texture (object self)) (geometry (object self))
            (scale (object self))
            (Vec3.add (translation (object self)) (Vec3.mulr (v self) (t - t)))
            (rotationAxis (object self))
            (rotationAngle (object self)
             - Vec3.dot (rotationAxis (object self))
                        (w (Animate true self t t)) * (t - t))).
  destruct (object self) as [sh ma te ge sc [tx ty tz] ax an]. simpl.
  f_equal.
  - apply Vec3_ext; simpl; ring.
  - ring.
Qed.

(** X19.  With zero stiffness and no gravity, drag alone scales the
    velocity by [1 - ro * dt / m] in a step, and angular drag alone scales
    the angular velocity by [1 - kappa * dt / I]. *)
Theorem drag_step (self : Body) (tstart tend : float) :
  m self <> 0 ->
  Vec3.x (scale (object self)) <> 0 \/ Vec3.y (scale (object self)) <> 0 ->
  D self = 0 -> g self = Vec3.zero ->
  let a := Animate_vars self tstart tend in
  let self' := Animate true self tstart tend in
  v self' = Vec3.mulr (v self) (1 - ro self * (tend - tstart) / m self) /\
  w self' = Vec3.mulr (w self)
                      (1 - kappa self * (tend - tstart) / Inertia a).
Proof.
  intros Hm Hs HD Hg. cbv zeta.
  pose proof (Inertia_nonzero self tstart tend Hm Hs) as HI.
  split.
  - rewrite Animate_v, (K_zero_stiffness self tstart tend HD), Hg.
    apply Vec3_ext; simpl; field; exact Hm.
  - rewrite Animate_w, (K_zero_stiffness self tstart tend HD).
    set (In_ := Inertia (Animate_vars self tstart tend)) in *.
    apply Vec3_ext; simpl; field; exact HI.
Qed.

(** X20.  Ticks before the first key press leave no trace: the run
    continues from the starting body with [goon] set. *)
Theorem run_from_first_key (b0 : Body) (ticks es : list event) :
  ~ In KeyPressed ticks ->
  run (World_start b0) (ticks ++ KeyPressed :: es)
  = run (mkWorld true b0) es.
Proof.
  intros Hno. unfold run. rewrite fold_left_app.
  change (fold_left handle ticks (World_start b0))
    with (run (World_start b0) ticks).
  rewrite run_before_KeyPressed by exact Hno. reflexivity.
Qed.

(** X21.  Once a key has been pressed the simulation runs for good: no
    event clears [goon]. *)
Theorem started_for_good (wd : World) (es1 es2 : list event) :
  goon (run (run wd (es1 ++ [KeyPressed])) es2) = true.
Proof.
  apply run_goon_stays.
  unfold run. rewrite fold_left_app. reflexivity.
Qed.

End BodyMotions.

(** The special motions on the cubes of the scene. *)
Lemma spring_pulls_to_anchor_witness :
  Vec3.length (K (Animate_vars cubeLow 0 0.1)) = 1 * 5.75 * (5.75 - 3).
Proof.
  destruct (spring_pulls_to_anchor cubeLow 0 0.1) as (_ & _ & Hlen).
  - rewrite cubeLow_tether, Vec3_length_y by lra. simpl. lra.
  - simpl. lra.
  - rewrite Hlen, cubeLow_tether, Vec3_length_y by lra. reflexivity.
Defined.

Lemma ballistic_step_witness :
  v (Animate true cubeCoast 0 0.1) = Vec3.mk 1 0 0 /\
  translation (object (Animate true cubeCoast 0 0.1)) = Vec3.mk 0.1 5 0.
Proof.
  destruct (ballistic_step cubeCoast 0 0.1) as [Hv Ht];
    [simpl; lra | reflexivity | reflexivity |].
  rewrite Hv, Ht. split; apply Vec3_ext; simpl; lra.
Defined.

Lemma free_spin_step_witness :
  w (Animate true cubeCoast 0 0.1) = Vec3.mk 0 0 1 /\
  rotationAngle (object (Animate true cubeCoast 0 0.1)) = -0.1.
Proof.
  destruct (free_spin_step cubeCoast 0 0.1) as [Hw Ha];
    [simpl; lra | left; simpl; lra | reflexivity | reflexivity |].
  rewrite Hw, Ha. split; [reflexivity|].
  unfold Vec3.dot. simpl. lra.
Defined.

Lemma zero_length_step_witness :
  object (Animate true cubeObject 1 1) = object cubeObject /\
  v (Animate true cubeObject 1 1) = Vec3.mk 1 0 0.
Proof.
  destruct (zero_length_step cubeObject 1) as (Ho & Hv & _);
    [simpl; lra | left; simpl; lra |].
  split; [exact Ho | rewrite Hv; reflexivity].
Defined.

Lemma drag_step_witness :
  v (Animate true cubeCoast 0 0.1) = Vec3.mk 1 0 0.
Proof.
  destruct (drag_step cubeCoast 0 0.1) as [Hv _];
    [simpl; lra | left; simpl; lra | reflexivity | reflexivity |].
  rewrite Hv. apply Vec3_ext; simpl; lra.
Defined.

Lemma run_from_first_key_witness :
  run (World_start cubeObject) ([Tick 0 0.1] ++ KeyPressed :: [Tick 0.1 0.2])
  = run (mkWorld true cubeObject) [Tick 0.1 0.2].
Proof.
  apply run_from_first_key.
  intros [E | []]. discriminate E.
Defined.

(* ================================================================= *)
(** ** [onIdle]: the rounds of the loop *)

Lemma onIdle_loop_done {St : Type} (fadd fsub : float -> float -> float)
    (animate : St -> float -> float -> St)
    (fuel : nat) (scene : St) (t tend : float) :
  tend <= t -> (0 < fuel)%nat ->
  onIdle_loop fadd fsub animate fuel scene t tend = Some scene.
Proof.
  intros Hle Hfuel. destruct fuel as [|fuel]; [lia|]. simpl.
  destruct (Rlt_dec t tend) as [Hlt | _]; [lra | reflexivity].
Qed.

Lemma rounds_needed (c x : R) : 0 < c -> exists n : nat, x <= INR n * c.
Proof.
  intros Hc.
  destruct (Rle_lt_dec x 0) as [Hx | Hx].
  - exists 0%nat. simpl. lra.
  - exists (Z.to_nat (up (x / c))).
    destruct (archimed (x / c)) as [Hup _].
    assert (H0 : 0 < x / c).
    { apply Rmult_lt_0_compat; [lra | apply Rinv_0_lt_compat; exact Hc]. }
    assert (Hz : (0 <= up (x / c))%Z) by (apply le_IZR; lra).
    rewrite INR_IZR_INZ, Z2Nat.id by exact Hz.
    apply Rmult_le_reg_r with (r := / c).
    + apply Rinv_0_lt_compat. exact Hc.
    + rewrite Rmult_assoc, Rinv_r by lra.
      unfold Rdiv in Hup. lra.
Qed.

Lemma onIdle_loop_progress {St : Type} (fadd fsub : float -> float -> float)
    (animate : St -> float -> float -> St) (tstart tend c : float) :
  0 < c ->
  (forall t, tstart <= t -> t < tend -> t + c <= fadd t onIdle_dt) ->
  forall (n : nat) (t : float) (scene : St) (fuel : nat),
    tstart <= t -> tend - t <= INR n * c -> (n < fuel)%nat ->
    exists scene' : St,
      onIdle_loop fadd fsub animate fuel scene t tend = Some scene'.
Proof.
  intros Hc Hstep.
  induction n as [|n IH]; intros t scene fuel Ht Hn Hfuel.
  - exists scene. apply onIdle_loop_done; [simpl in Hn; lra | lia].
  - destruct fuel as [|fuel]; [lia|]. simpl.
    destruct (Rlt_dec t tend) as [Hlt | Hge]; [|exists scene; reflexivity].
    pose proof (Hstep t Ht Hlt) as Hadv.
    apply IH; [lra | rewrite S_INR in Hn; lra | lia].
Qed.

(** X22.  The loop of [onIdle] ends whenever every [t += dt] moves [t]
    forward by at least some fixed positive amount [c], whatever the
    rounding of the additions otherwise is. *)
Theorem onIdle_terminates {St : Type} (fadd fsub : float -> float -> float)
    (animate : St -> float -> float -> St) (scene : St)
    (tstart tend c : float) :
  0 < c ->
  (forall t, tstart <= t -> t < tend -> t + c <= fadd t onIdle_dt) ->
  exists fuel0 : nat,
    forall fuel : nat, (fuel0 <= fuel)%nat ->
      exists scene' : St,
        onIdle_loop fadd fsub animate fuel scene tstart tend = Some scene'.
Proof.
  intros Hc Hstep.
  destruct (rounds_needed c (tend - tstart) Hc) as (n & Hn).
  exists (Datatypes.S n). intros fuel Hfuel.
  apply (onIdle_loop_progress fadd fsub animate tstart tend c Hc Hstep n);
    [lra | exact Hn | lia].
Qed.

(** With exact additions a quarter of a second takes three rounds. *)
Lemma onIdle_terminates_witness :
  exists (fuel : nat) (rounds : nat),
    onIdle_loop Rplus Rminus (fun (k : nat) (_ _ : float) => Datatypes.S k)
                fuel 0%nat 0 0.25
    = Some rounds.
Proof.
  destruct (onIdle_terminates Rplus Rminus
              (fun (k : nat) (_ _ : float) => Datatypes.S k) 0%nat
              0 0.25 0.1) as (fuel0 & Hrun).
  - lra.
  - intros t _ _. unfold onIdle_dt. lra.
  - destruct (Hrun fuel0 (Nat.le_refl fuel0)) as (rounds & E).
    exists fuel0, rounds. exact E.
Defined.

(** X23.  When the clock has not advanced, [onIdle] calls [scene.Animate]
    not once and only stores the new time. *)
Theorem onIdle_no_time {St : Type} (fadd fsub : float -> float -> float)
    (animate : St -> float -> float -> St)
    (fuel : nat) (tend_static : float) (scene : St) (elapsed : Z) :
  IZR elapsed / 1000 <= tend_static -> (0 < fuel)%nat ->
  onIdle fadd fsub animate fuel tend_static scene elapsed
  = Some (IZR elapsed / 1000, scene).
Proof.
  intros Hle Hfuel. unfold onIdle.
  rewrite onIdle_loop_done by assumption. reflexivity.
Qed.

Lemma onIdle_no_time_witness :
  onIdle Rplus Rminus (fun (n : nat) (_ _ : float) => Datatypes.S n)
         1 2 0%nat 1500
  = Some (1500 / 1000, 0%nat).
Proof.
  apply onIdle_no_time; [lra | lia].
Defined.



(* ================================================================= *)
(** ** Steps in a row, and the first camera *)

Section SubSteps.
Context {fw : Framework}.

(** X24.  Cutting the time into steps does not disturb ballistic motion:
    with the simulation running, a mass that is not zero, no spring and no
    drag, steps that follow one another from [a] to [c] leave the body
    with the velocity [v + g * (c - a)], and without gravity it has moved
    by [v * (c - a)], however the time was cut. *)
Theorem ballistic_substeps (calls : list (float * float)) (a c : float) :
  contiguous a c calls ->
  forall wd : World,
    goon wd = true -> m (body wd) <> 0 -> D (body wd) = 0 ->
    ro (body wd) = 0 ->
    let wd' := animate_calls Scene_Animate calls wd in
    goon wd' = true /\
    v (body wd')
    = Vec3.add (v (body wd)) (Vec3.mulr (g (body wd)) (c - a)) /\
    (g (body wd) = Vec3.zero ->
     translation (object (body wd'))
     = Vec3.add (translation (object (body wd)))
                (Vec3.mulr (v (body wd)) (c - a))).
Proof.
  induction 1 as [a | a b1 c calls Hrest IH];
    intros wd Hgo Hm HD Hro; cbv zeta.
  - cbn. split; [exact Hgo|].
    split; [apply Vec3_ext; simpl; ring|].
    intros _. apply Vec3_ext; simpl; ring.
  - change (animate_calls Scene_Animate ((a, b1) :: calls) wd)
      with (animate_calls Scene_Animate calls (Scene_Animate wd a b1)).
    set (wd1 := Scene_Animate wd a b1).
    assert (Hb1 : body wd1 = Animate true (body wd) a b1).
    { unfold wd1, Scene_Animate. rewrite Hgo. reflexivity. }
    assert (Hv1 : v (body wd1)
                  = Vec3.add (v (body wd))
                             (Vec3.mulr (g (body wd)) (b1 - a))).
    { rewrite Hb1, Animate_v,
        (K_zero_stiffness (body wd) a b1 HD), Hro.
      apply Vec3_ext; simpl; field; exact Hm. }
    assert (Hg1 : g (body wd1) = g (body wd)) by (rewrite Hb1; reflexivity).
    assert (Ht1 : translation (object (body wd1))
                  = Vec3.add (translation (object (body wd)))
                             (Vec3.mulr (v (body wd)) (b1 - a)))
      by (rewrite Hb1; reflexivity).
    destruct (IH wd1) as (Hgo' & Hv' & Ht').
    + unfold wd1, Scene_Animate. exact Hgo.
    + rewrite Hb1. exact Hm.
    + rewrite Hb1. exact HD.
    + rewrite Hb1. exact Hro.
    + split; [exact Hgo'|]. split.
      * rewrite Hv', Hv1, Hg1. apply Vec3_ext; simpl; ring.
      * intros Hg0. rewrite Ht' by (rewrite Hg1; exact Hg0).
        rewrite Ht1, Hv1, Hg0. apply Vec3_ext; simpl; ring.
Qed.

(** X25.  Wherever the scene is and whatever the time, [Scene::Animate]
    puts the eye of the first camera on the circle of radius ten about the
    origin in the plane [y = 0], and leaves its target and its up vector
    alone. *)
Theorem camera_orbit (started : bool) (self : Scene) (tstart tend : float) :
  let self' := Scene_Animate_cameras started self tstart tend in
  Vec3.length (wEye (camera self')) = 10 /\
  Vec3.y (wEye (camera self')) = 0 /\
  wLookat (camera self') = wLookat (camera self) /\
  wVup (camera self') = wVup (camera self).
Proof.
  cbv zeta. split; [|repeat split].
  unfold Scene_Animate_cameras. cbn [camera wEye].
  unfold Vec3.length, Vec3.dot, sinf, cosf. cbn [Vec3.x Vec3.y Vec3.z].
  pose proof (sin2_cos2 (tend / 5)) as E. unfold Rsqr in E.
  replace (10 * sin (tend / 5) * (10 * sin (tend / 5)) + 0 * 0
           + 10 * cos (tend / 5) * (10 * cos (tend / 5)))
    with (10 * 10) by nra.
  apply sqrt_square. lra.
Qed.

End SubSteps.

(** The coasting cube over a quarter of a second, in three steps. *)
Lemma ballistic_substeps_witness :
  let wd' :=
    animate_calls Scene_Animate [(0, 0.1); (0.1, 0.2); (0.2, 0.25)]
                  (mkWorld true cubeCoast) in
  v (body wd') = Vec3.mk 1 0 0 /\
  translation (object (body wd')) = Vec3.mk 0.25 5 0.
Proof.
  cbv zeta.
  assert (Hc : contiguous 0 0.25 [(0, 0.1); (0.1, 0.2); (0.2, 0.25)])
    by (repeat constructor).
  destruct (@ballistic_substeps Framework_Mat4 _ 0 0.25 Hc
              (mkWorld true cubeCoast))
    as (_ & Hv & Ht).
  - reflexivity.
  - simpl. lra.
  - reflexivity.
  - reflexivity.
  - split.
    + rewrite Hv. apply Vec3_ext; simpl; lra.
    + rewrite Ht by reflexivity. apply Vec3_ext; simpl; lra.
Defined.
